(** * GEOS: 3D envelopes and the nodes of the simple STR tree

    A shallow embedding of
    - [src/geom/Envelope3d.cpp] (axis-aligned boxes over C++ [double]),
    - [src/index/strtree/SimpleSTRnode3d.cpp] (tree nodes holding raw
      pointers to their children),
    - the inline members of [include/geos/index/strtree/SimpleSTRtree.h],
    - the inline members of [CoordinateXYZ], in
      [include/geos/geom/Coordinate3d.h],
    together with the properties the specification states about them and
    further properties of the code.

    A C++ [double] is an IEEE 754 binary64 number: it is modelled by Rocq's
    primitive [float], whose operations are the binary64 ones. *)

From Stdlib Require Import ZArith Lia List Bool Floats String Ascii.
From stdpp Require Import base option list gmap.

Local Open Scope Z_scope.

(** ** Comparisons of doubles

    [<], [<=], [==] on doubles are [PrimFloat.ltb], [PrimFloat.leb],
    [PrimFloat.eqb]; every comparison with a NaN is false.  To reason about
    them, each double that is not a NaN is sent to an integer key in such a
    way that the comparisons of doubles are the comparisons of keys. *)
Module Double.

Abbreviation double := float.

(** [std::isnan] *)
Definition isnan (x : double) : bool := PrimFloat.is_nan x.

(** [geos::DoubleNotANumber] *)
Definition DoubleNotANumber : double := nan.

Definition base53 : Z := 2 ^ 53.

Definition sf_key (f : spec_float) : Z :=
  match f with
  | S754_zero _ => 0
  | S754_infinity s => if s then - (4096 * base53) else 4096 * base53
  | S754_nan => 0
  | S754_finite s m e =>
      if s then - ((e + 1075) * base53 + Z.pos m)
      else (e + 1075) * base53 + Z.pos m
  end.

Definition key (x : double) : Z := sf_key (Prim2SF x).

Definition sf_is_nan (f : spec_float) : bool :=
  match f with S754_nan => true | _ => false end.

End Double.

Import Double.

(** ** Envelope3d *)

(** The six extents of [class Envelope3d]. *)
Record Envelope3d : Type := mkEnvelope3d {
  minx : double; maxx : double;
  miny : double; maxy : double;
  minz : double; maxz : double }.

(** Modelled from the spec: [Envelope3d.h], which declares the class and
    defines its inline members, is not among the sources.  The spec gives a
    box "a distinguished null/empty state" that [intersects] never matches;
    [Envelope3d.cpp] relies on comparisons against a null envelope being
    false ("awkward comparison catches cases where this->isNull()"), that is
    on extents that are NaN.  The null envelope has every extent NaN, and a
    box is null when its [maxx] is. *)
Definition setToNull (e : Envelope3d) : Envelope3d :=
  mkEnvelope3d DoubleNotANumber DoubleNotANumber DoubleNotANumber
    DoubleNotANumber DoubleNotANumber DoubleNotANumber.

(** Modelled from the spec: the default constructor of [Envelope3d.h] makes
    the null box. *)
Definition Envelope3d_default : Envelope3d :=
  setToNull (mkEnvelope3d 0 0 0 0 0 0).

(** Modelled from the spec: [Envelope3d::isNull] of [Envelope3d.h]. *)
Definition isNull (e : Envelope3d) : bool := isnan (maxx e).

(** Modelled from the spec: [Envelope3d::init] of [Envelope3d.h] stores each
    pair of ordinates smaller first, so that "for a non-null box, min <= max
    on every axis". *)
Definition init (x1 x2 y1 y2 z1 z2 : double) : Envelope3d :=
  let '(nx, xx) := if PrimFloat.ltb x1 x2 then (x1, x2) else (x2, x1) in
  let '(ny, xy) := if PrimFloat.ltb y1 y2 then (y1, y2) else (y2, y1) in
  let '(nz, xz) := if PrimFloat.ltb z1 z2 then (z1, z2) else (z2, z1) in
  mkEnvelope3d nx xx ny xy nz xz.

(** Modelled from the spec: [Envelope3d::intersects(const Envelope3d&)] of
    [Envelope3d.h]: "true iff the two volumes overlap on every axis
    (touching counts as intersecting)", and false against a null box. *)
Definition intersects (this other : Envelope3d) : bool :=
  PrimFloat.leb (minx other) (maxx this) &&
  PrimFloat.leb (minx this) (maxx other) &&
  PrimFloat.leb (miny other) (maxy this) &&
  PrimFloat.leb (miny this) (maxy other) &&
  PrimFloat.leb (minz other) (maxz this) &&
  PrimFloat.leb (minz this) (maxz other).

(** Modelled from the spec: [Envelope3d::expandToInclude(const Envelope3d&)]
    of [Envelope3d.h]: "mutates in place to the minimal covering volume;
    no-op if other is null", and "on a null box adopts the other box
    unchanged". *)
Definition expandToInclude (this other : Envelope3d) : Envelope3d :=
  if isNull this then other
  else
    mkEnvelope3d
      (if PrimFloat.ltb (minx other) (minx this) then minx other else minx this)
      (if PrimFloat.ltb (maxx this) (maxx other) then maxx other else maxx this)
      (if PrimFloat.ltb (miny other) (miny this) then miny other else miny this)
      (if PrimFloat.ltb (maxy this) (maxy other) then maxy other else maxy this)
      (if PrimFloat.ltb (minz other) (minz this) then minz other else minz this)
      (if PrimFloat.ltb (maxz this) (maxz other) then maxz other
       else maxz this).

(** [Envelope3d::covers(const Envelope3d&)] *)
Definition covers (this other : Envelope3d) : bool :=
  PrimFloat.leb (minx this) (minx other) &&
  PrimFloat.leb (maxx other) (maxx this) &&
  PrimFloat.leb (miny this) (miny other) &&
  PrimFloat.leb (maxy other) (maxy this) &&
  PrimFloat.leb (minz this) (minz other) &&
  PrimFloat.leb (maxz other) (maxz this).

(** [Envelope3d::equals(const Envelope3d* )] *)
Definition equals (this other : Envelope3d) : bool :=
  if isNull this then isNull other
  else
    PrimFloat.eqb (minx other) (minx this) &&
    PrimFloat.eqb (maxx other) (maxx this) &&
    PrimFloat.eqb (miny other) (miny this) &&
    PrimFloat.eqb (maxy other) (maxy this) &&
    PrimFloat.eqb (minz other) (minz this) &&
    PrimFloat.eqb (maxz other) (maxz this).

(** [Envelope3d::intersection(const Envelope3d& env, Envelope3d& result)]:
    the returned pair is the boolean result and the content of [result]
    afterwards. *)
Definition intersection (this env result : Envelope3d) : bool * Envelope3d :=
  if isNull this || isNull env || negb (intersects this env) then
    (false, result)
  else
    let intMinX :=
      if PrimFloat.ltb (minx env) (minx this) then minx this else minx env in
    let intMinY :=
      if PrimFloat.ltb (miny env) (miny this) then miny this else miny env in
    let intMaxX :=
      if PrimFloat.ltb (maxx this) (maxx env) then maxx this else maxx env in
    let intMaxY :=
      if PrimFloat.ltb (maxy this) (maxy env) then maxy this else maxy env in
    let intMinZ :=
      if PrimFloat.ltb (minz env) (minz this) then minz this else minz env in
    let intMaxZ :=
      if PrimFloat.ltb (maxz this) (maxz env) then maxz this else maxz env in
    (true, init intMinX intMaxX intMinY intMaxY intMinZ intMaxZ).

(** [Envelope3d::translate] *)
Definition translate (this : Envelope3d) (transX transY transZ : double)
  : Envelope3d :=
  if isNull this then this
  else
    init (PrimFloat.add (minx this) transX) (PrimFloat.add (maxx this) transX)
         (PrimFloat.add (miny this) transY) (PrimFloat.add (maxy this) transY)
         (PrimFloat.add (minz this) transZ) (PrimFloat.add (maxz this) transZ).

(** The six assignments at the head of [Envelope3d::expandBy]. *)
Definition expandBy_extents (this : Envelope3d) (deltaX deltaY deltaZ : double)
  : Envelope3d :=
  mkEnvelope3d
    (PrimFloat.sub (minx this) deltaX) (PrimFloat.add (maxx this) deltaX)
    (PrimFloat.sub (miny this) deltaY) (PrimFloat.add (maxy this) deltaY)
    (PrimFloat.sub (minz this) deltaZ) (PrimFloat.add (maxz this) deltaZ).

(** [Envelope3d::expandBy] *)
Definition expandBy (this : Envelope3d) (deltaX deltaY deltaZ : double)
  : Envelope3d :=
  let e := expandBy_extents this deltaX deltaY deltaZ in
  if PrimFloat.ltb (maxx e) (minx e) || PrimFloat.ltb (maxy e) (miny e)
     || PrimFloat.ltb (maxz e) (minz e)
  then setToNull e
  else e.

(** [operator<(const Envelope3d&, const Envelope3d&)] *)
Definition operator_lt (a b : Envelope3d) : bool :=
  if isNull a then
    if isNull b then false else true
  else if isNull b then false
  else if PrimFloat.ltb (minx a) (minx b) then true
  else if PrimFloat.ltb (minx b) (minx a) then false
  else if PrimFloat.ltb (miny a) (miny b) then true
  else if PrimFloat.ltb (miny b) (miny a) then false
  else if PrimFloat.ltb (minz a) (minz b) then true
  else if PrimFloat.ltb (minz b) (minz a) then false
  else if PrimFloat.ltb (maxx a) (maxx b) then true
  else if PrimFloat.ltb (maxx b) (maxx a) then false
  else if PrimFloat.ltb (maxy a) (maxy b) then true
  else if PrimFloat.ltb (maxy b) (maxy a) then false
  else if PrimFloat.ltb (maxz a) (maxz b) then true
  else if PrimFloat.ltb (maxz b) (maxz a) then false
  else false.

(** *** Predicates of the specification *)

(** No extent is a NaN. *)
Definition numeric (e : Envelope3d) : bool :=
  negb (isnan (minx e)) && negb (isnan (maxx e)) &&
  negb (isnan (miny e)) && negb (isnan (maxy e)) &&
  negb (isnan (minz e)) && negb (isnan (maxz e)).

(** The data invariant of the spec: "for a non-null box, min <= max on every
    axis". *)
Definition well_formed (e : Envelope3d) : bool :=
  isNull e ||
  (PrimFloat.leb (minx e) (maxx e) && PrimFloat.leb (miny e) (maxy e)
   && PrimFloat.leb (minz e) (maxz e)).


(** [m] is the larger (resp. the smaller) of [x] and [y], for the numerical
    comparison of doubles. *)
Definition is_max_of (m x y : double) : Prop :=
  (PrimFloat.eqb m x = true \/ PrimFloat.eqb m y = true) /\
  PrimFloat.leb x m = true /\ PrimFloat.leb y m = true.

Definition is_min_of (m x y : double) : Prop :=
  (PrimFloat.eqb m x = true \/ PrimFloat.eqb m y = true) /\
  PrimFloat.leb m x = true /\ PrimFloat.leb m y = true.

(** The lexicographic order on sequences of doubles of the same length. *)
Fixpoint lex_lt (u v : list double) : bool :=
  match u, v with
  | x :: u', y :: v' =>
      PrimFloat.ltb x y || (PrimFloat.eqb x y && lex_lt u' v')
  | _, _ => false
  end.

(** The tuple [operator<] compares. *)
Definition ordinates (e : Envelope3d) : list double :=
  [minx e; miny e; minz e; maxx e; maxy e; maxz e].

(** ** Strings: the textual form of an envelope

    A [std::string] is the list of its characters; positions and counts are
    [std::string::size_type], 64 bits wide, with [npos] its largest value. *)

Abbreviation cstring := (list ascii).

(** [std::size_t], 64 bits wide: additions and subtractions wrap around. *)
Definition size_t_max : Z := 2 ^ 64 - 1.

Definition size_t_add (a b : Z) : Z := (a + b) mod 2 ^ 64.

Definition npos : Z := size_t_max.

Definition size_t_sub (a b : Z) : Z := (a - b) mod 2 ^ 64.

Definition size (s : cstring) : Z := Z.of_nat (length s).

(** The first position, not before [pos], of a character that satisfies
    [P], or [npos]: the search behind [find], [find_first_of] and
    [find_first_not_of]; [i] is the position of the head of [s]. *)
Fixpoint find_if_from (P : ascii -> bool) (s : cstring) (i pos : Z) : Z :=
  match s with
  | [] => npos
  | a :: s' =>
      if (pos <=? i) && P a then i else find_if_from P s' (i + 1) pos
  end.

Definition is_one_of (set : cstring) (a : ascii) : bool :=
  existsb (Ascii.eqb a) set.

(** [std::string::find(char)] *)
Definition find (str : cstring) (ch : ascii) : Z :=
  find_if_from (Ascii.eqb ch) str 0 0.

(** [std::string::find_first_of(const std::string&, size_type)] *)
Definition find_first_of (str delimiters : cstring) (pos : Z) : Z :=
  find_if_from (is_one_of delimiters) str 0 pos.

(** [std::string::find_first_not_of(const std::string&, size_type)] *)
Definition find_first_not_of (str delimiters : cstring) (pos : Z) : Z :=
  find_if_from (fun a => negb (is_one_of delimiters a)) str 0 pos.

(** [std::string::substr(pos, count)]: [None] stands for the exception
    [std::out_of_range], thrown when [pos] is past the end. *)
Definition substr (str : cstring) (pos count : Z) : option cstring :=
  if size str <? pos then None
  else
    Some (take (Z.to_nat (Z.min count (size str - pos)))
            (drop (Z.to_nat pos) str)).

(** The [while] loop of [Envelope3d::split]; one unit of [fuel] per
    iteration, [None] when the fuel runs out or [substr] throws. *)
Fixpoint split_loop (fuel : nat) (str delimiters : cstring)
    (lastPos pos : Z) (tokens : list cstring) : option (list cstring) :=
  match fuel with
  | O => None
  | S fuel' =>
      if negb (pos =? npos) || negb (lastPos =? npos) then
        tok ← substr str lastPos (size_t_sub pos lastPos);
        let lastPos' := find_first_not_of str delimiters pos in
        let pos' := find_first_of str delimiters lastPos' in
        split_loop fuel' str delimiters lastPos' pos' (tokens ++ [tok])
      else Some tokens
  end.

(** [Envelope3d::split]: the loop runs at most once per character, and once
    more to see both positions at [npos]. *)
Definition split (str delimiters : cstring) : option (list cstring) :=
  split_loop (S (S (length str))) str delimiters 0
    (find_first_of str delimiters 0) [].

(** [std::string::c_str]: the characters a C function sees, up to the first
    null character. *)
Fixpoint c_str (s : cstring) : cstring :=
  match s with
  | [] => []
  | a :: s' => if Ascii.eqb a Ascii.zero then [] else a :: c_str s'
  end.

(** [Envelope3d::Envelope3d(const std::string&)].  [strtod] is the function
    of the C library, called with a null end pointer: it is a parameter.
    [None] stands for an exception of [substr] or for the undefined
    behaviour of [values[i]] past the end of the vector. *)
Definition Envelope3d_of_string (strtod : cstring -> double) (str : cstring)
  : option Envelope3d :=
  let index := find str "["%char in
  coordString ← substr str (size_t_add index 1)
                  (size_t_sub (size_t_sub (size str) 1) 1);
  values ← split coordString (list_ascii_of_string ":,");
  v0 ← values !! 0%nat; v1 ← values !! 1%nat; v2 ← values !! 2%nat;
  v3 ← values !! 3%nat; v4 ← values !! 4%nat; v5 ← values !! 5%nat;
  Some (init (strtod (c_str v0)) (strtod (c_str v1)) (strtod (c_str v2))
          (strtod (c_str v3)) (strtod (c_str v4)) (strtod (c_str v5))).

(** [operator<<(std::ostream&, const Envelope3d&)]: the characters written
    to the stream.  [put] is [std::ostream::operator<<(double)] of the C++
    library: it is a parameter. *)
Definition operator_shl (put : double -> cstring) (o : Envelope3d) : cstring :=
  list_ascii_of_string "Env[" ++ put (minx o) ++
  list_ascii_of_string ":" ++ put (maxx o) ++
  list_ascii_of_string "," ++ put (miny o) ++
  list_ascii_of_string ":" ++ put (maxy o) ++
  list_ascii_of_string "," ++ put (minz o) ++
  list_ascii_of_string ":" ++ put (maxz o) ++
  list_ascii_of_string "]".

(** [Envelope3d::toString] *)
Definition toString (put : double -> cstring) (this : Envelope3d) : cstring :=
  operator_shl put this.

(** A token of the textual form: not empty, and free of the two
    delimiters. *)
Definition is_delimiter (a : ascii) : bool :=
  is_one_of (list_ascii_of_string ":,") a.

Definition token (t : cstring) : bool :=
  negb (Nat.eqb (length t) 0) && forallb (fun a => negb (is_delimiter a)) t.

(** The textual form built from six tokens. *)
Definition envelope_text (t0 t1 t2 t3 t4 t5 : cstring) : cstring :=
  list_ascii_of_string "Env[" ++ t0 ++ list_ascii_of_string ":" ++ t1 ++
  list_ascii_of_string "," ++ t2 ++ list_ascii_of_string ":" ++ t3 ++
  list_ascii_of_string "," ++ t4 ++ list_ascii_of_string ":" ++ t5 ++
  list_ascii_of_string "]".

(** ** The numerals of the C and C++ libraries

    [operator<<] writes each extent with [std::ostream::operator<<(double)]
    and the constructor reads each token with [strtod].  Neither belongs to
    GEOS.  The general statements below take them as parameters; to run the
    code on concrete envelopes and texts, this module gives executable
    models of the two, after ISO C ([printf] with [%g], [strtod]) and the
    default state of a C++ stream (general format, precision 6). *)
Module Libc.

Definition chars (s : string) : cstring := list_ascii_of_string s.

Definition digit (d : Z) : ascii := ascii_of_nat (48 + Z.to_nat d).

(** The decimal digits of [n >= 0], most significant first. *)
Fixpoint decimal_loop (fuel : nat) (n : Z) (acc : cstring) : cstring :=
  match fuel with
  | O => acc
  | S fuel' =>
      if n <? 10 then digit n :: acc
      else decimal_loop fuel' (n / 10) (digit (n mod 10) :: acc)
  end.

Definition decimal (n : Z) : cstring :=
  decimal_loop (S (Z.to_nat (Z.log2 n))) n [].

(** Is [num / den < 10 ^ x]? *)
Definition below_pow10 (num den x : Z) : bool :=
  if 0 <=? x then num <? 10 ^ x * den else num * 10 ^ (- x) <? den.

(** The decimal exponent of [num / den > 0]: the [x] with
    [10 ^ x <= num / den < 10 ^ (x + 1)]. *)
Fixpoint exponent10 (fuel : nat) (num den x : Z) : Z :=
  match fuel with
  | O => x
  | S fuel' =>
      if below_pow10 num den x then exponent10 fuel' num den (x - 1)
      else if below_pow10 num den (x + 1) then x
      else exponent10 fuel' num den (x + 1)
  end.

(** [num / den] rounded to an integer, ties to even. *)
Definition round_half_even (num den : Z) : Z :=
  let q := num / den in
  let r := num mod den in
  if 2 * r <? den then q
  else if den <? 2 * r then q + 1
  else if Z.even q then q else q + 1.

Fixpoint drop_zeros (s : cstring) : cstring :=
  match s with
  | a :: s' => if Ascii.eqb a "0"%char then drop_zeros s' else s
  | [] => []
  end.

(** Trailing zeros removed. *)
Definition strip_zeros (s : cstring) : cstring :=
  rev (drop_zeros (rev s)).

Definition with_point (int_part frac_part : cstring) : cstring :=
  match frac_part with
  | [] => int_part
  | _ => int_part ++ chars "." ++ frac_part
  end.

(** [%g] with precision 6 on [num / den > 0]: six significant digits,
    the exponent form when the decimal exponent is below -4 or at least 6,
    trailing zeros and a trailing point removed. *)
Definition format_g (num den : Z) : cstring :=
  let x0 := exponent10 800 num den 0 in
  let k := x0 - 5 in
  let d0 :=
    if 0 <=? k then round_half_even num (den * 10 ^ k)
    else round_half_even (num * 10 ^ (- k)) den in
  let '(d, x) := if d0 =? 10 ^ 6 then (10 ^ 5, x0 + 1) else (d0, x0) in
  let digits := decimal d in
  if (x <? -4) || (6 <=? x) then
    with_point (take 1 digits) (strip_zeros (drop 1 digits)) ++
    chars "e" ++ (if x <? 0 then chars "-" else chars "+") ++
    (if Z.abs x <? 10 then chars "0" else []) ++ decimal (Z.abs x)
  else if 0 <=? x then
    with_point (take (Z.to_nat (x + 1)) digits)
      (strip_zeros (drop (Z.to_nat (x + 1)) digits))
  else
    chars "0." ++ replicate (Z.to_nat (- x - 1)) "0"%char ++
    strip_zeros digits.

(** [std::ostream::operator<<(double)] on a stream in its default state. *)
Definition put_double (x : double) : cstring :=
  match Prim2SF x with
  | S754_nan => chars "nan"
  | S754_infinity s => (if s then chars "-" else []) ++ chars "inf"
  | S754_zero s => (if s then chars "-" else []) ++ chars "0"
  | S754_finite s m e =>
      (if s then chars "-" else []) ++
      (if 0 <=? e then format_g (Z.pos m * 2 ^ e) 1
       else format_g (Z.pos m) (2 ^ (- e)))
  end.

(** *** strtod *)

Definition is_space (a : ascii) : bool :=
  let n := nat_of_ascii a in
  Nat.eqb n 32 || (Nat.leb 9 n && Nat.leb n 13).

Definition is_digit (a : ascii) : bool :=
  let n := nat_of_ascii a in Nat.leb 48 n && Nat.leb n 57.

Definition digit_value (a : ascii) : Z := Z.of_nat (nat_of_ascii a) - 48.

Definition lower (a : ascii) : ascii :=
  let n := nat_of_ascii a in
  if Nat.leb 65 n && Nat.leb n 90 then ascii_of_nat (n + 32) else a.

Fixpoint skip_spaces (s : cstring) : cstring :=
  match s with
  | a :: s' => if is_space a then skip_spaces s' else s
  | [] => []
  end.

(** The digits at the head of [s]: their value appended to [acc], their
    number, and what follows them. *)
Fixpoint read_digits (s : cstring) (acc : Z) (count : Z)
  : Z * Z * cstring :=
  match s with
  | a :: s' =>
      if is_digit a then read_digits s' (10 * acc + digit_value a) (count + 1)
      else (acc, count, s)
  | [] => (acc, count, [])
  end.

Fixpoint starts_with (prefix s : cstring) : bool :=
  match prefix, s with
  | [], _ => true
  | p :: prefix', a :: s' => Ascii.eqb p (lower a) && starts_with prefix' s'
  | _ :: _, [] => false
  end.

(** The optional exponent part: [e] or [E], an optional sign and at least
    one digit; 0 when there is none. *)
Definition read_exponent (s : cstring) : Z :=
  match s with
  | a :: s' =>
      if Ascii.eqb (lower a) "e"%char then
        let '(neg, s'') :=
          match s' with
          | b :: r =>
              if Ascii.eqb b "-"%char then (true, r)
              else if Ascii.eqb b "+"%char then (false, r)
              else (false, s')
          | [] => (false, s')
          end in
        let '(v, n, _) := read_digits s'' 0 0 in
        if n =? 0 then 0 else if neg then - v else v
      else 0
  | [] => 0
  end.

(** The double nearest to [p / q], for [p, q > 0], ties to even: the
    quotient is computed with more than 53 bits and a sticky bit, and
    rounded by [binary_normalize]. *)
Definition nearest_double (neg : bool) (p q : Z) : double :=
  let s := Z.max 0 (Z.log2 q - Z.log2 p + 66) in
  let n := p * 2 ^ s in
  let m := 2 * (n / q) + (if n mod q =? 0 then 0 else 1) in
  SF2Prim (binary_normalize prec emax (if neg then - m else m) (- s - 1)
             neg).

(** [strtod(s, nullptr)] on decimal numerals, [inf], [infinity] and [nan]:
    leading white space is skipped, the longest numeral at the head is
    converted, what follows is ignored, and 0 is returned when there is no
    numeral.  The hexadecimal form is not modelled. *)
Definition strtod (str : cstring) : double :=
  let s0 := skip_spaces str in
  let '(neg, s1) :=
    match s0 with
    | a :: r =>
        if Ascii.eqb a "-"%char then (true, r)
        else if Ascii.eqb a "+"%char then (false, r)
        else (false, s0)
    | [] => (false, s0)
    end in
  if starts_with (chars "inf") s1 then
    if neg then neg_infinity else infinity
  else if starts_with (chars "nan") s1 then nan
  else
    let '(int_value, int_count, s2) := read_digits s1 0 0 in
    let '(value, frac_count, s3) :=
      match s2 with
      | a :: r =>
          if Ascii.eqb a "."%char then read_digits r int_value 0
          else (int_value, 0, s2)
      | [] => (int_value, 0, s2)
      end in
    if int_count + frac_count =? 0 then 0%float
    else
      let e10 := read_exponent s3 - frac_count in
      if value =? 0 then (if neg then (-0)%float else 0%float)
      else if 0 <=? e10 then nearest_double neg (value * 10 ^ e10) 1
      else nearest_double neg value (10 ^ (- e10)).

End Libc.

(** The text after the first token: separators, each followed by a token. *)
Definition separated (rest : list (ascii * cstring)) : cstring :=
  concat (map (fun x => fst x :: snd x) rest).

Definition free_of (delimiters t : cstring) : bool :=
  forallb (fun a => negb (is_one_of delimiters a)) t.

(** What follows the first token in the textual form of an envelope. *)
Definition envelope_rest (t1 t2 t3 t4 t5 : cstring) : list (ascii * cstring) :=
  [(":"%char, t1); (","%char, t2); (":"%char, t3); (","%char, t4);
   (":"%char, t5 ++ list_ascii_of_string "]")].

(** The printed form of every extent of [e] is a token, and [strtod] reads
    each one back as the extent it came from; the last one is read with the
    closing bracket after it, as the constructor does. *)
Definition survives (put : double -> cstring) (strtod : cstring -> double)
    (e : Envelope3d) : bool :=
  token (put (minx e)) && token (put (maxx e)) && token (put (miny e))
  && token (put (maxy e)) && token (put (minz e)) && token (put (maxz e))
  && PrimFloat.eqb (strtod (c_str (put (minx e)))) (minx e)
  && PrimFloat.eqb (strtod (c_str (put (maxx e)))) (maxx e)
  && PrimFloat.eqb (strtod (c_str (put (miny e)))) (miny e)
  && PrimFloat.eqb (strtod (c_str (put (maxy e)))) (maxy e)
  && PrimFloat.eqb (strtod (c_str (put (minz e)))) (minz e)
  && PrimFloat.eqb
       (strtod (c_str (put (maxz e) ++ list_ascii_of_string "]"))) (maxz e).

(** The six extents of [a] and [b] are equal, as [==] on doubles has it. *)
Definition same_extents (a b : Envelope3d) : bool :=
  PrimFloat.eqb (minx a) (minx b) && PrimFloat.eqb (maxx a) (maxx b)
  && PrimFloat.eqb (miny a) (miny b) && PrimFloat.eqb (maxy a) (maxy b)
  && PrimFloat.eqb (minz a) (minz b) && PrimFloat.eqb (maxz a) (maxz b).

(** An envelope with an extent of seven significant digits: 0.1234567,
    the double 0x1.f9adbb8f8da72p-4. *)
Definition seven_digits : Envelope3d :=
  mkEnvelope3d 0x1.f9adbb8f8da72p-4 1 0 1 0 1.

(** ** SimpleSTRnode3d

    Nodes refer to their children by raw pointers ([SimpleSTRnode3d*]) and
    to their item by a [void*]: a pointer is an address, and the nodes live
    in a store that maps the address of each node to its content. *)

Definition ptr : Type := Z.

Definition nullptr : ptr := 0.

(** Modelled from the spec: [SimpleSTRnode3d.h], which declares the class,
    is not among the sources; the spec lists the fields of a tree node:
    "bounds", "level", "children: ordered sequence of non-owning node
    references" and "item: optional opaque reference". *)
Record SimpleSTRnode3d : Type := mkSimpleSTRnode3d {
  childNodes : list ptr;
  item : ptr;
  bounds : Envelope3d;
  level : Z }.

(** The store of nodes. *)
Abbreviation heap := (gmap Z SimpleSTRnode3d).

(** Modelled from the spec: the accessor [getItem] of [SimpleSTRnode3d.h],
    called through a pointer; [None] when the pointer is dangling. *)
Definition getItem (h : heap) (p : ptr) : option ptr :=
  item <$> h !! p.

(** Modelled from the spec: the accessor [getEnvelope] of
    [SimpleSTRnode3d.h], called through a pointer. *)
Definition getEnvelope (h : heap) (p : ptr) : option Envelope3d :=
  bounds <$> h !! p.

(** [SimpleSTRnode3d::addChildNode3d], called on the node at [this]. *)
Definition addChildNode3d (h : heap) (this childNode : ptr) : option heap :=
  n ← h !! this;
  env ← getEnvelope h childNode;
  let bounds' :=
    if isNull (bounds n) then env else expandToInclude (bounds n) env in
  Some (<[this := mkSimpleSTRnode3d (childNodes n ++ [childNode]) (item n)
                    bounds' (level n)]> h).

(** The loop of [removeItem] over [childNodes]: the list after the erasure
    of the first child whose item is [itemToRemove], with [true]; the list as
    it was, with [false], when no child has that item. *)
Fixpoint removeItem_loop (h : heap) (itemToRemove : ptr) (cs : list ptr)
  : option (bool * list ptr) :=
  match cs with
  | [] => Some (false, [])
  | c :: cs' =>
      i ← getItem h c;
      if i =? itemToRemove then Some (true, cs')
      else
        r ← removeItem_loop h itemToRemove cs';
        Some (fst r, c :: snd r)
  end.

(** [SimpleSTRnode3d::removeItem], called on the node at [this]. *)
Definition removeItem (h : heap) (this itemToRemove : ptr)
  : option (bool * heap) :=
  n ← h !! this;
  r ← removeItem_loop h itemToRemove (childNodes n);
  if fst (r : bool * list ptr) then
    Some (true, <[this := mkSimpleSTRnode3d (snd r) (item n) (bounds n)
                            (level n)]> h)
  else Some (false, h).

(** The loop of [removeChild]: pointers are compared, no child is read. *)
Fixpoint removeChild_loop (child : ptr) (cs : list ptr) : bool * list ptr :=
  match cs with
  | [] => (false, [])
  | c :: cs' =>
      if c =? child then (true, cs')
      else
        let r := removeChild_loop child cs' in
        (fst r, c :: snd r)
  end.

(** [SimpleSTRnode3d::removeChild], called on the node at [this]. *)
Definition removeChild (h : heap) (this child : ptr) : option (bool * heap) :=
  n ← h !! this;
  let r := removeChild_loop child (childNodes n) in
  if fst r then
    Some (true, <[this := mkSimpleSTRnode3d (snd r) (item n) (bounds n)
                            (level n)]> h)
  else Some (false, h).

Section Counting.

(** [SimpleSTRnode3d::isLeaf] is defined in [SimpleSTRnode3d.h], which is
    not among the sources: the counting functions take it as a
    parameter. *)
Variable isLeaf : SimpleSTRnode3d -> bool.

(** The loop [for (auto* node: getChildNodes()) count += f(node)]. *)
Fixpoint count_loop (f : ptr -> option Z) (count : Z) (cs : list ptr)
  : option Z :=
  match cs with
  | [] => Some count
  | c :: cs' =>
      k ← f c;
      count_loop f (size_t_add count k) cs'
  end.

(** [SimpleSTRnode3d::getNumNodes]; the recursion through the pointers is
    bounded by [fuel], and [None] is for a dangling pointer or for fuel
    running out. *)
Fixpoint getNumNodes (fuel : nat) (h : heap) (this : ptr) : option Z :=
  match fuel with
  | O => None
  | S fuel' =>
      n ← h !! this;
      if isLeaf n then Some 1
      else count_loop (getNumNodes fuel' h) 1 (childNodes n)
  end.

(** [SimpleSTRnode3d::getNumLeafNodes] *)
Fixpoint getNumLeafNodes (fuel : nat) (h : heap) (this : ptr) : option Z :=
  match fuel with
  | O => None
  | S fuel' =>
      n ← h !! this;
      count_loop (getNumLeafNodes fuel' h) (if isLeaf n then 1 else 0)
        (childNodes n)
  end.

End Counting.

(** *** The tree a pointer stands for *)

(** A finite tree of nodes: the address of a node, its content, and the
    trees of its children. *)
#[local] Unset Elimination Schemes.

Inductive stree : Type :=
  | SNode (p : ptr) (n : SimpleSTRnode3d) (kids : list stree).

(** In the store [h], the pointer [p] is the root of the tree [t]. *)
Inductive repr (h : heap) : ptr -> stree -> Prop :=
  | repr_node (p : ptr) (n : SimpleSTRnode3d) (kids : list stree) :
      h !! p = Some n ->
      Forall2 (repr h) (childNodes n) kids ->
      repr h p (SNode p n kids).

#[local] Set Elimination Schemes.

(** Induction on trees, with the hypothesis on every child. *)
Fixpoint stree_ind (P : stree -> Prop)
    (H : forall (p : ptr) (n : SimpleSTRnode3d) (kids : list stree),
        Forall P kids -> P (SNode p n kids))
    (t : stree) : P t :=
  match t with
  | SNode p n kids =>
      H p n kids
        ((fix go (l : list stree) : Forall P l :=
            match l with
            | [] => @List.Forall_nil stree P
            | k :: l' =>
                @List.Forall_cons stree P k l' (stree_ind P H k) (go l')
            end) kids)
  end.

(** The nodes of a tree, root first. *)
Fixpoint flatten (t : stree) : list SimpleSTRnode3d :=
  match t with
  | SNode _ n kids => n :: concat (map flatten kids)
  end.

(** The addresses of the nodes of a tree, root first. *)
Fixpoint addresses (t : stree) : list ptr :=
  match t with
  | SNode p _ kids => p :: concat (map addresses kids)
  end.

Fixpoint height (t : stree) : nat :=
  match t with
  | SNode _ _ kids => S (foldr Nat.max O (map height kids))
  end.

(** The invariant of the spec that a leaf has no children. *)
Fixpoint leaves_childless (isLeaf : SimpleSTRnode3d -> bool) (t : stree)
  : Prop :=
  match t with
  | SNode _ n kids =>
      (isLeaf n = true -> kids = []) /\
      foldr and True (map (leaves_childless isLeaf) kids)
  end.

(** The child at [p] holds an item other than [itm]. *)
Definition item_differs (h : heap) (itm : ptr) (p : ptr) : Prop :=
  exists i : ptr, getItem h p = Some i /\ i <> itm.

(** [cs'] is [cs] with one entry erased, the others in their order. *)
Definition erased_one (cs cs' : list ptr) : Prop :=
  exists (l1 : list ptr) (c : ptr) (l2 : list ptr),
    cs = l1 ++ c :: l2 /\ cs' = l1 ++ l2.

(** What a removal on the node at [this], of content [n] before, may do to
    reach the store [h'] with result [b]: the bounds, the level and the item
    of the node stay, every other node stays, and the child list loses one
    entry ([b] true) or none ([b] false). *)
Definition removal_frame (h : heap) (this : ptr) (n : SimpleSTRnode3d)
    (b : bool) (h' : heap) : Prop :=
  exists n' : SimpleSTRnode3d,
    h' !! this = Some n' /\
    bounds n' = bounds n /\ level n' = level n /\ item n' = item n /\
    (if b then erased_one (childNodes n) (childNodes n')
     else childNodes n' = childNodes n) /\
    forall q : ptr, q <> this -> h' !! q = h !! q.

(** A store of three nodes: at 1 a parent of level 1 whose children are the
    leaves at 2 and 3, which hold the items 10 and 11. *)
Definition cube (lo hi : double) : Envelope3d :=
  mkEnvelope3d lo hi lo hi lo hi.

Definition example_parent : SimpleSTRnode3d :=
  mkSimpleSTRnode3d [2; 3] nullptr (cube 0 6) 1.

Definition example_heap : heap :=
  <[1 := example_parent]>
    (<[2 := mkSimpleSTRnode3d [] 10 (cube 0 1) 0]>
       (<[3 := mkSimpleSTRnode3d [] 11 (cube 5 6) 0]> ∅)).

(** The tree the pointer 1 stands for in the example store, and a leaf test
    for it. *)
Definition example_tree : stree :=
  SNode 1 example_parent
    [SNode 2 (mkSimpleSTRnode3d [] 10 (cube 0 1) 0) [];
     SNode 3 (mkSimpleSTRnode3d [] 11 (cube 5 6) 0) []].

(** Modelled from the spec: [SimpleSTRnode3d::isLeaf] of [SimpleSTRnode3d.h];
    the spec has "level: integer (0 = leaf level, increasing toward the
    root)". *)
Definition level_zero (n : SimpleSTRnode3d) : bool := level n =? 0.


(** Every extent is a NaN. *)
Definition null_box (e : Envelope3d) : bool :=
  isnan (minx e) && isnan (maxx e) && isnan (miny e) && isnan (maxy e)
  && isnan (minz e) && isnan (maxz e).

(** The boxes the class builds: the null box, or extents that are numbers
    with min <= max on every axis. *)
Definition canonical (e : Envelope3d) : bool :=
  null_box e ||
  (PrimFloat.leb (minx e) (maxx e) && PrimFloat.leb (miny e) (maxy e)
   && PrimFloat.leb (minz e) (maxz e)).


(** ** SimpleSTRtree: the inline members of the header *)
Module SimpleSTRtree.

(** The members of [class SimpleSTRtree]; the two node arenas
    ([nodesQue], [nodesQue3d]) are the stores of nodes. *)
Record tree : Type := mkTree {
  nodes : list ptr;
  nodes3d : list ptr;
  nodeCapacity : Z;
  built : bool;
  root : ptr;
  root3d : ptr }.

(** [SimpleSTRtree(std::size_t capacity = 10)]: the constructor
    initialises [nodeCapacity], [built] and [root]; [root3d] is left
    uninitialised, and [indeterminate] stands for whatever it holds. *)
Definition new (indeterminate : ptr) (capacity : Z) : tree :=
  mkTree [] [] capacity false nullptr indeterminate.

Definition default_capacity : Z := 10.

(** [getNodeCapacity] *)
Definition getNodeCapacity (t : tree) : Z := nodeCapacity t.

(** [getBuilt] *)
Definition getBuilt (t : tree) : bool := built t.

(** [getNumLeafNodes]: [root] points to a two-dimensional node, whose
    class is not among the sources; [node_getNumLeafNodes] is its
    [getNumLeafNodes], called through the pointer. *)
Definition getNumLeafNodes (node_getNumLeafNodes : ptr -> option Z)
    (t : tree) : option Z :=
  if root t =? nullptr then Some 0
  else node_getNumLeafNodes (root t).

(** Modelled from the spec: [build] and [build3d] are defined in
    [SimpleSTRtree.cpp], which is not among the sources.  "Building twice
    is a no-op guarded by the built flag"; the first build packs the
    inserted leaves into a root, "or the tree stays rootless if zero items
    were inserted".  The packing itself is the parameter [pack], from the
    node capacity and the leaves to the root. *)
Definition build (pack : Z -> list ptr -> ptr) (t : tree) : tree :=
  if built t then t
  else mkTree (nodes t) (nodes3d t) (nodeCapacity t) true
         (pack (nodeCapacity t) (nodes t)) (root3d t).

Definition build3d (pack : Z -> list ptr -> ptr) (t : tree) : tree :=
  if built t then t
  else mkTree (nodes t) (nodes3d t) (nodeCapacity t) true (root t)
         (pack (nodeCapacity t) (nodes3d t)).

(** Modelled from the spec: [insert] is defined in [SimpleSTRtree.cpp];
    "insert operations append leaf nodes to the arena", [leaf] being the
    address of the new leaf. *)
Definition insert (leaf : ptr) (t : tree) : tree :=
  mkTree (nodes t ++ [leaf]) (nodes3d t) (nodeCapacity t) (built t)
    (root t) (root3d t).

Definition insert3d (leaf : ptr) (t : tree) : tree :=
  mkTree (nodes t) (nodes3d t ++ [leaf]) (nodeCapacity t) (built t)
    (root t) (root3d t).

(** Modelled from the spec: the operations of the public interface whose
    bodies are in [SimpleSTRtree.cpp].  "The first query, getRoot, or
    nearest-neighbor call triggers lazy construction"; [remove] mutates
    child lists of nodes, which live in the store, not in the tree. *)
Inductive operation : Type :=
  | OpGetNodeCapacity | OpGetNumLeafNodes | OpGetBuilt
  | OpGetRoot | OpGetRoot3d
  | OpInsert (leaf : ptr) | OpInsert3d (leaf : ptr)
  | OpQuery | OpRemove | OpNearestNeighbour.

(** The tree after one operation. *)
Definition step (pack pack3d : Z -> list ptr -> ptr) (t : tree)
    (op : operation) : tree :=
  match op with
  | OpGetNodeCapacity | OpGetNumLeafNodes | OpGetBuilt => t
  | OpGetRoot => build pack t
  | OpGetRoot3d => build3d pack3d t
  | OpInsert leaf => insert leaf t
  | OpInsert3d leaf => insert3d leaf t
  | OpQuery | OpNearestNeighbour => build pack t
  | OpRemove => t
  end.

(** The tree after a sequence of operations. *)
Definition run (pack pack3d : Z -> list ptr -> ptr) (t : tree)
    (ops : list operation) : tree :=
  fold_left (step pack pack3d) ops t.

End SimpleSTRtree.

(** ** CoordinateXYZ

    The inline members of [class CoordinateXYZ] of [Coordinate3d.h]. *)
Module CoordinateXYZ.

Record t : Type := mk { x : double; y : double; z : double }.

(** [CoordinateXYZ()] *)
Definition default : t := mk 0 0 0.

(** [isValid]; [std::isfinite] is [PrimFloat.is_finite]. *)
Definition isValid (this : t) : bool :=
  PrimFloat.is_finite (x this) && PrimFloat.is_finite (y this)
  && PrimFloat.is_finite (z this).

(** [equals3D(const CoordinateXYZ&)]; [a != b] on doubles is the negation of
    [a == b]. *)
Definition equals3D (this other : t) : bool :=
  if negb (PrimFloat.eqb (x this) (x other)) then false
  else if negb (PrimFloat.eqb (y this) (y other)) then false
  else if negb (PrimFloat.eqb (z this) (z other)) then false
  else true.

(** [equals3D(const CoordinateXYZ&, double tolerance)] *)
Definition equals3D_tolerance (this other : t) (tolerance : double) : bool :=
  if PrimFloat.ltb tolerance (PrimFloat.abs (PrimFloat.sub (x this) (x other)))
  then false
  else if PrimFloat.ltb tolerance
            (PrimFloat.abs (PrimFloat.sub (y this) (y other)))
  then false
  else if PrimFloat.ltb tolerance
            (PrimFloat.abs (PrimFloat.sub (z this) (z other)))
  then false
  else true.

(** [equals] *)
Definition equals (this other : t) : bool := equals3D this other.

(** [operator==] and [operator!=] *)
Definition operator_eq (a b : t) : bool := equals3D a b.

Definition operator_ne (a b : t) : bool := negb (equals3D a b).

(** [compareTo]; the result is an [int]. *)
Definition compareTo (this other : t) : Z :=
  if PrimFloat.ltb (x this) (x other) then -1
  else if PrimFloat.ltb (x other) (x this) then 1
  else if PrimFloat.ltb (y this) (y other) then -1
  else if PrimFloat.ltb (y other) (y this) then 1
  else if PrimFloat.ltb (z this) (z other) then -1
  else if PrimFloat.ltb (z other) (z this) then 1
  else 0.

(** [distanceSquared] *)
Definition distanceSquared (this p : t) : double :=
  let dx := PrimFloat.sub (x this) (x p) in
  let dy := PrimFloat.sub (y this) (y p) in
  let dz := PrimFloat.sub (z this) (z p) in
  PrimFloat.add (PrimFloat.add (PrimFloat.mul dx dx) (PrimFloat.mul dy dy))
    (PrimFloat.mul dz dz).

(** [distance] *)
Definition distance (this p : t) : double :=
  let dx := PrimFloat.sub (x this) (x p) in
  let dy := PrimFloat.sub (y this) (y p) in
  let dz := PrimFloat.sub (z this) (z p) in
  PrimFloat.sqrt
    (PrimFloat.add (PrimFloat.add (PrimFloat.mul dx dx) (PrimFloat.mul dy dy))
       (PrimFloat.mul dz dz)).

(** [isNull] *)
Definition isNull (this : t) : bool :=
  isnan (x this) && isnan (y this) && isnan (z this).

(** [setNull] *)
Definition setNull (this : t) : t :=
  mk DoubleNotANumber DoubleNotANumber DoubleNotANumber.

(** [HashCode::operator()]; [hash] is [std::hash<double>], of the C++
    library, and the shifts are on a [size_t]. *)
Definition HashCode (hash : double -> Z) (c : t) : Z :=
  let h := hash (x c) in
  let h := Z.lxor h (Z.shiftl (hash (y c)) 1 mod 2 ^ 64) in
  let h := Z.lxor h (Z.shiftl (hash (z c)) 2 mod 2 ^ 64) in
  h.

(** No ordinate is a NaN. *)
Definition numeric (c : t) : bool :=
  negb (isnan (x c)) && negb (isnan (y c)) && negb (isnan (z c)).

End CoordinateXYZ.

(** ** Envelope3d and coordinates *)

(** [static Envelope3d::intersects(p1, p2, q)]: is [q] in the box of the
    segment from [p1] to [p2]? *)
Definition intersects_point (p1 p2 q : CoordinateXYZ.t) : bool :=
  let lo (a b : double) := if PrimFloat.ltb a b then a else b in
  let hi (a b : double) := if PrimFloat.ltb b a then a else b in
  if (PrimFloat.leb (lo (CoordinateXYZ.x p1) (CoordinateXYZ.x p2))
        (CoordinateXYZ.x q)
      && PrimFloat.leb (CoordinateXYZ.x q)
           (hi (CoordinateXYZ.x p1) (CoordinateXYZ.x p2)))
     && (PrimFloat.leb (lo (CoordinateXYZ.y p1) (CoordinateXYZ.y p2))
           (CoordinateXYZ.y q)
         && PrimFloat.leb (CoordinateXYZ.y q)
              (hi (CoordinateXYZ.y p1) (CoordinateXYZ.y p2)))
     && (PrimFloat.leb (lo (CoordinateXYZ.z p1) (CoordinateXYZ.z p2))
           (CoordinateXYZ.z q)
         && PrimFloat.leb (CoordinateXYZ.z q)
              (hi (CoordinateXYZ.z p1) (CoordinateXYZ.z p2)))
  then true
  else false.

(** [Envelope3d::intersects(a, b) const]: does the envelope meet the box of
    the segment from [a] to [b]? *)
Definition intersects_segment (this : Envelope3d) (a b : CoordinateXYZ.t)
  : bool :=
  let envminx :=
    if PrimFloat.ltb (CoordinateXYZ.x a) (CoordinateXYZ.x b)
    then CoordinateXYZ.x a else CoordinateXYZ.x b in
  if negb (PrimFloat.leb envminx (maxx this)) then false
  else
    let envmaxx :=
      if PrimFloat.ltb (CoordinateXYZ.x b) (CoordinateXYZ.x a)
      then CoordinateXYZ.x a else CoordinateXYZ.x b in
    if PrimFloat.ltb envmaxx (minx this) then false
    else
      let envminy :=
        if PrimFloat.ltb (CoordinateXYZ.y a) (CoordinateXYZ.y b)
        then CoordinateXYZ.y a else CoordinateXYZ.y b in
      if PrimFloat.ltb (maxy this) envminy then false
      else
        let envmaxy :=
          if PrimFloat.ltb (CoordinateXYZ.y b) (CoordinateXYZ.y a)
          then CoordinateXYZ.y a else CoordinateXYZ.y b in
        if PrimFloat.ltb envmaxy (miny this) then false
        else
          let envminz :=
            if PrimFloat.ltb (CoordinateXYZ.z a) (CoordinateXYZ.z b)
            then CoordinateXYZ.z a else CoordinateXYZ.z b in
          if PrimFloat.ltb (maxz this) envminz then false
          else
            let envmaxz :=
              if PrimFloat.ltb (CoordinateXYZ.z b) (CoordinateXYZ.z a)
              then CoordinateXYZ.z a else CoordinateXYZ.z b in
            if PrimFloat.ltb envmaxz (minz this) then false
            else true.

(** [Envelope3d::hashCode]; [hash] is [std::hash<double>], and the
    arithmetic is on a [size_t]. *)
Definition hashCode (hash : double -> Z) (this : Envelope3d) : Z :=
  let result := 17 in
  let result := size_t_add (37 * result mod 2 ^ 64) (hash (minx this)) in
  let result := size_t_add (37 * result mod 2 ^ 64) (hash (maxx this)) in
  let result := size_t_add (37 * result mod 2 ^ 64) (hash (miny this)) in
  let result := size_t_add (37 * result mod 2 ^ 64) (hash (maxy this)) in
  let result := size_t_add (37 * result mod 2 ^ 64) (hash (minz this)) in
  let result := size_t_add (37 * result mod 2 ^ 64) (hash (maxz this)) in
  result.

(** The envelope that is the single point [q]. *)
Definition point_box (q : CoordinateXYZ.t) : Envelope3d :=
  mkEnvelope3d (CoordinateXYZ.x q) (CoordinateXYZ.x q)
    (CoordinateXYZ.y q) (CoordinateXYZ.y q)
    (CoordinateXYZ.z q) (CoordinateXYZ.z q).

(** Two sequences of doubles are equal, position by position. *)
Fixpoint all_eqb (u v : list double) : bool :=
  match u, v with
  | x :: u', y :: v' => PrimFloat.eqb x y && all_eqb u' v'
  | [], [] => true
  | _, _ => false
  end.

(** The text after the first token, in general: runs of delimiters, each
    followed by a token. *)
Definition runs (rest : list (cstring * cstring)) : cstring :=
  concat (map (fun x => fst x ++ snd x) rest).

(** A run of delimiters that is not empty, and the token after it, not
    empty either. *)
Definition run_and_token (delimiters : cstring) (x : cstring * cstring)
  : Prop :=
  fst x <> [] /\ forallb (is_one_of delimiters) (fst x) = true /\
  snd x <> [] /\ free_of delimiters (snd x) = true.

(** A string cut at its delimiters: the token at its head, the runs of
    delimiters with the token after each, and the delimiters at its end. *)
Fixpoint decompose (delimiters str : cstring)
  : cstring * list (cstring * cstring) * cstring :=
  match str with
  | [] => ([], [], [])
  | a :: s =>
      let '(t0, rest, tail) := decompose delimiters s in
      if is_one_of delimiters a then
        match t0, rest with
        | [], [] => ([], [], a :: tail)
        | [], (ds, t) :: r => ([], (a :: ds, t) :: r, tail)
        | _ :: _, _ => ([], ([a], t0) :: rest, tail)
        end
      else (a :: t0, rest, tail)
  end.

(** The textual form with four tokens, as for a two-dimensional envelope. *)
Definition envelope_text_2d (t0 t1 t2 t3 : cstring) : cstring :=
  list_ascii_of_string "Env[" ++ t0 ++ list_ascii_of_string ":" ++ t1 ++
  list_ascii_of_string "," ++ t2 ++ list_ascii_of_string ":" ++ t3 ++
  list_ascii_of_string "]".

(** Six tokens with the delimiters of the textual form between them, and
    what comes after the last one. *)
Definition envelope_body (t0 t1 t2 t3 t4 t5 closing : cstring) : cstring :=
  t0 ++ list_ascii_of_string ":" ++ t1 ++
  list_ascii_of_string "," ++ t2 ++ list_ascii_of_string ":" ++ t3 ++
  list_ascii_of_string "," ++ t4 ++ list_ascii_of_string ":" ++ t5 ++
  closing.

(** No character of [s] is the opening bracket. *)
Definition no_bracket (s : cstring) : bool :=
  forallb (fun a => negb (Ascii.eqb "["%char a)) s.

(** * Properties *)

(** ** Doubles: comparisons are comparisons of keys *)
Module DoubleFacts.

Lemma digits2_pos_bound (m : positive) :
  Z.pos m < 2 ^ Z.pos (digits2_pos m).
Proof.
  induction m as [m IH | m IH |]; simpl digits2_pos.
  - rewrite Pos2Z.inj_succ, Z.pow_succ_r by lia. lia.
  - rewrite Pos2Z.inj_succ, Z.pow_succ_r by lia. lia.
  - reflexivity.
Qed.

Lemma valid_finite_bounds s m e :
  valid_binary (S754_finite s m e) = true ->
  Z.pos m < base53 /\ -1074 <= e <= 971.
Proof.
  unfold SpecFloat.valid_binary, bounded, canonical_mantissa, fexp.
  intros H. apply andb_prop in H as [Hc He].
  apply Z.eqb_eq in Hc. apply Z.leb_le in He.
  change (SpecFloat.emin prec emax) with (-1074) in Hc.
  change (emax - prec) with 971 in He.
  change prec with 53 in Hc.
  assert (Hd : Z.pos (digits2_pos m) <= 53) by lia.
  pose proof (digits2_pos_bound m) as Hm.
  assert (2 ^ Z.pos (digits2_pos m) <= 2 ^ 53)
    by (apply Z.pow_le_mono_r; lia).
  unfold base53. lia.
Qed.

Lemma SFcompare_key (x y : spec_float) :
  valid_binary x = true -> valid_binary y = true ->
  SFcompare x y =
    if sf_is_nan x || sf_is_nan y then None
    else Some (sf_key x ?= sf_key y).
Proof.
  intros Hx Hy.
  destruct x as [sx | sx | | sx mx ex], y as [sy | sy | | sy my ey];
    try reflexivity;
    try (apply valid_finite_bounds in Hx as [Hmx Hex]);
    try (apply valid_finite_bounds in Hy as [Hmy Hey]);
    unfold base53 in *; cbn [SFcompare sf_is_nan orb sf_key];
    repeat match goal with
      | |- context [if ?b then _ else _] => destruct b
      end;
    f_equal; symmetry;
    try (apply Z.compare_eq_iff; unfold base53; lia);
    try (apply Z.compare_lt_iff; unfold base53; lia);
    try (apply Z.compare_gt_iff; unfold base53; lia).
  - change (PosDef.Pos.compare_cont Eq mx my) with (Z.pos mx ?= Z.pos my).
    unfold base53.
    destruct (Z.compare_spec ex ey), (Z.compare_spec (Z.pos mx) (Z.pos my));
      simpl CompOpp;
      first [apply Z.compare_eq_iff | apply Z.compare_lt_iff
            | apply Z.compare_gt_iff]; lia.
  - change (PosDef.Pos.compare_cont Eq mx my) with (Z.pos mx ?= Z.pos my).
    unfold base53.
    destruct (Z.compare_spec ex ey), (Z.compare_spec (Z.pos mx) (Z.pos my));
      first [apply Z.compare_eq_iff | apply Z.compare_lt_iff
            | apply Z.compare_gt_iff]; lia.
Qed.

Lemma compare_key (x y : double) :
  SFcompare (Prim2SF x) (Prim2SF y) =
    if sf_is_nan (Prim2SF x) || sf_is_nan (Prim2SF y) then None
    else Some (key x ?= key y).
Proof. apply SFcompare_key; apply Prim2SF_valid. Qed.

Lemma isnan_sf (x : double) : isnan x = sf_is_nan (Prim2SF x).
Proof.
  unfold isnan, PrimFloat.is_nan. rewrite FloatAxioms.eqb_spec. unfold SFeqb.
  rewrite compare_key. destruct (sf_is_nan (Prim2SF x)); simpl; [easy |].
  now rewrite Z.compare_refl.
Qed.

(** The three comparisons, read on keys. *)
Lemma ltb_key (x y : double) :
  PrimFloat.ltb x y = negb (isnan x) && negb (isnan y) && (key x <? key y).
Proof.
  rewrite FloatAxioms.ltb_spec, !isnan_sf. unfold SFltb. rewrite compare_key.
  destruct (sf_is_nan (Prim2SF x)), (sf_is_nan (Prim2SF y)); simpl;
    reflexivity.
Qed.

Lemma leb_key (x y : double) :
  PrimFloat.leb x y = negb (isnan x) && negb (isnan y) && (key x <=? key y).
Proof.
  rewrite FloatAxioms.leb_spec, !isnan_sf. unfold SFleb. rewrite compare_key.
  destruct (sf_is_nan (Prim2SF x)), (sf_is_nan (Prim2SF y)); simpl;
    reflexivity.
Qed.

Lemma eqb_key (x y : double) :
  PrimFloat.eqb x y = negb (isnan x) && negb (isnan y) && (key x =? key y).
Proof.
  rewrite FloatAxioms.eqb_spec, !isnan_sf. unfold SFeqb. rewrite compare_key.
  destruct (sf_is_nan (Prim2SF x)), (sf_is_nan (Prim2SF y)); simpl;
    try reflexivity.
  rewrite Z.eqb_compare. now destruct (key x ?= key y).
Qed.

Lemma isnan_nan : isnan DoubleNotANumber = true.
Proof. reflexivity. Qed.

End DoubleFacts.

Import DoubleFacts.

(** Turns every comparison of doubles of the goal and of the hypotheses into
    a comparison of integer keys, settles which doubles are NaN from the
    hypotheses where they say so and by cases elsewhere, and leaves linear
    integer arithmetic. *)
Ltac nan_facts :=
  repeat match goal with
    | H : andb _ _ = true |- _ => apply andb_prop in H; destruct H
    | H : negb (isnan _) = true |- _ => apply negb_true_iff in H
    | H : isnan ?x = _, H' : context [isnan ?x] |- _ =>
        lazymatch type of H' with
        | isnan x = _ => fail
        | _ => rewrite H in H'; cbn [negb andb orb] in H'
        end
    | H : isnan ?x = _ |- context [isnan ?x] =>
        rewrite H; cbn [negb andb orb]
    end.

Ltac nan_cases :=
  repeat match goal with
    | H : context [isnan ?x] |- _ =>
        lazymatch type of H with
        | isnan x = _ => fail
        | _ => destruct (isnan x) eqn:?; cbn [negb andb orb] in *; nan_facts
        end
    | |- context [isnan ?x] =>
        destruct (isnan x) eqn:?; cbn [negb andb orb] in *; nan_facts
    end.

Ltac double_keys :=
  rewrite ?ltb_key, ?leb_key, ?eqb_key in *;
  nan_facts; nan_cases;
  rewrite ?andb_true_iff, ?andb_false_iff, ?orb_true_iff, ?orb_false_iff,
    ?negb_true_iff, ?negb_false_iff,
    ?Z.ltb_lt, ?Z.leb_le, ?Z.eqb_eq, ?Z.ltb_ge, ?Z.leb_gt, ?Z.eqb_neq in *.

(** ** Envelope3d::intersection *)

Lemma intersects_not_null (a b : Envelope3d) :
  intersects a b = true -> isNull a = false /\ isNull b = false.
Proof.
  unfold intersects, isNull. intros H.
  repeat (apply andb_prop in H as [H ?]).
  double_keys; intuition congruence.
Qed.


Lemma well_formed_numeric (e : Envelope3d) :
  well_formed e = true -> isNull e = false -> numeric e = true.
Proof.
  unfold well_formed, numeric, isNull. intros H Hn. rewrite Hn in H.
  simpl in H. repeat (apply andb_prop in H as [H ?]).
  double_keys; intuition congruence.
Qed.

(** One axis of [intersection]: with [lo1 <= hi1], [lo2 <= hi2] and the two
    intervals overlapping, the pair [init] stores is (max of the lower ends,
    min of the upper ends). *)
Lemma intersection_axis (lo1 hi1 lo2 hi2 : double) :
  PrimFloat.leb lo1 hi1 = true -> PrimFloat.leb lo2 hi2 = true ->
  PrimFloat.leb lo2 hi1 = true -> PrimFloat.leb lo1 hi2 = true ->
  let lo := if PrimFloat.ltb lo2 lo1 then lo1 else lo2 in
  let hi := if PrimFloat.ltb hi1 hi2 then hi1 else hi2 in
  let p := if PrimFloat.ltb lo hi then (lo, hi) else (hi, lo) in
  is_max_of (fst p) lo1 lo2 /\ is_min_of (snd p) hi1 hi2.
Proof.
  intros H1 H2 H3 H4. unfold is_max_of, is_min_of.
  destruct (PrimFloat.ltb lo2 lo1) eqn:E1, (PrimFloat.ltb hi1 hi2) eqn:E2;
    cbv zeta;
    match goal with
    | |- context [if PrimFloat.ltb ?x ?y then _ else _] =>
        destruct (PrimFloat.ltb x y) eqn:E3
    end; cbn [fst snd];
    double_keys; try lia; try intuition lia.
Qed.




(** ** operator< on envelopes *)

Lemma ltb_irrefl (x : double) : PrimFloat.ltb x x = false.
Proof. rewrite ltb_key, Z.ltb_irrefl. now rewrite andb_false_r. Qed.

Lemma numeric_not_null (e : Envelope3d) :
  numeric e = true -> isNull e = false.
Proof.
  unfold numeric, isNull. intros H.
  repeat (apply andb_prop in H as [H ?]).
  now apply negb_true_iff.
Qed.

(** One step of the cascade of comparisons: on doubles that are not NaN,
    "less, else greater, else go on" is the lexicographic step. *)
Lemma lex_step (x y : double) (rest : bool) :
  isnan x = false -> isnan y = false ->
  (if PrimFloat.ltb x y then true
   else if PrimFloat.ltb y x then false else rest)
  = PrimFloat.ltb x y || (PrimFloat.eqb x y && rest).
Proof.
  intros Hx Hy. rewrite !ltb_key, eqb_key, Hx, Hy. cbn [negb andb].
  destruct (Z.ltb_spec (key x) (key y)); [reflexivity |].
  destruct (Z.ltb_spec (key y) (key x)); cbn [orb].
  - replace (key x =? key y) with false; [reflexivity |].
    symmetry. apply Z.eqb_neq. lia.
  - replace (key x =? key y) with true; [reflexivity |].
    symmetry. apply Z.eqb_eq. lia.
Qed.

(** C6, as amended.  [operator<] ranks a null envelope strictly below every
    non-null one, never ranks a null envelope below a null one nor an
    envelope below itself, and on envelopes none of whose extents is NaN it
    is the lexicographic order of (minX, minY, minZ, maxX, maxY, maxZ). *)
Theorem operator_lt_lexicographic (a b : Envelope3d) :
  (isNull a = true -> isNull b = false -> operator_lt a b = true) /\
  (isNull a = true -> isNull b = true -> operator_lt a b = false) /\
  (isNull a = false -> isNull b = true -> operator_lt a b = false) /\
  operator_lt a a = false /\
  (numeric a = true -> numeric b = true ->
   operator_lt a b = lex_lt (ordinates a) (ordinates b)).
Proof.
  repeat split.
  - intros Ha Hb. unfold operator_lt. now rewrite Ha, Hb.
  - intros Ha Hb. unfold operator_lt. now rewrite Ha, Hb.
  - intros Ha Hb. unfold operator_lt. now rewrite Ha, Hb.
  - unfold operator_lt. destruct (isNull a); [reflexivity |].
    now rewrite !ltb_irrefl.
  - intros Ha Hb. unfold operator_lt.
    rewrite (numeric_not_null a Ha), (numeric_not_null b Hb).
    unfold numeric in Ha, Hb.
    repeat (apply andb_prop in Ha as [Ha ?]).
    repeat (apply andb_prop in Hb as [Hb ?]).
    repeat match goal with
      | H : negb _ = true |- _ => apply negb_true_iff in H
      end.
    unfold ordinates. cbn [lex_lt].
    rewrite !lex_step by assumption.
    now rewrite andb_false_r.
Qed.

(** The theorem at two boxes that first differ in their minZ. *)
Lemma operator_lt_lexicographic_witness :
  operator_lt (mkEnvelope3d 0 5 0 5 1 5) (mkEnvelope3d 0 4 0 4 2 4)
  = lex_lt (ordinates (mkEnvelope3d 0 5 0 5 1 5))
      (ordinates (mkEnvelope3d 0 4 0 4 2 4)) /\
  operator_lt (mkEnvelope3d 0 5 0 5 1 5) (mkEnvelope3d 0 4 0 4 2 4) = true.
Proof.
  split; [| reflexivity].
  apply (operator_lt_lexicographic (mkEnvelope3d 0 5 0 5 1 5)
           (mkEnvelope3d 0 4 0 4 2 4)); reflexivity.
Defined.

(** C6, as stated, fails on envelopes with a NaN extent that are not null:
    [operator<] steps over an ordinate that is NaN, as if the two were
    equal there, so it is no lexicographic order, and not even an order.
    The string constructor makes of [Env[5:nan,1:2,0:1]] an envelope whose
    minX is NaN; a box of minX 2 is below it and it is below a box of minX
    1, yet the first box is not below the second. *)
Lemma operator_lt_not_transitive_on_nan :
  Envelope3d_of_string Libc.strtod (list_ascii_of_string "Env[5:nan,1:2,0:1]")
  = Some (mkEnvelope3d DoubleNotANumber 5 1 2 0 1) /\
  isNull (mkEnvelope3d DoubleNotANumber 5 1 2 0 1) = false /\
  operator_lt (mkEnvelope3d 2 3 0 1 0 1)
    (mkEnvelope3d DoubleNotANumber 5 1 2 0 1) = true /\
  operator_lt (mkEnvelope3d DoubleNotANumber 5 1 2 0 1)
    (mkEnvelope3d 1 3 2 3 0 1) = true /\
  operator_lt (mkEnvelope3d 2 3 0 1 0 1) (mkEnvelope3d 1 3 2 3 0 1) = false /\
  lex_lt (ordinates (mkEnvelope3d DoubleNotANumber 5 1 2 0 1))
    (ordinates (mkEnvelope3d 1 3 2 3 0 1)) = false.
Proof. repeat split; vm_compute; reflexivity. Qed.

(** ** Envelope3d::expandBy *)

(** C10.  [expandBy] subtracts each delta from the min extent and adds it to
    the max extent of its axis; when that leaves min above max on some axis
    the envelope becomes the null envelope, and otherwise it keeps exactly
    the shifted extents.  In no case is the result left inverted. *)
Theorem expandBy_shifts_or_nulls (e : Envelope3d) (dx dy dz : double) :
  let s := expandBy_extents e dx dy dz in
  let r := expandBy e dx dy dz in
  let inverted (b : Envelope3d) :=
    PrimFloat.ltb (maxx b) (minx b) || PrimFloat.ltb (maxy b) (miny b)
    || PrimFloat.ltb (maxz b) (minz b) in
  minx s = PrimFloat.sub (minx e) dx /\ maxx s = PrimFloat.add (maxx e) dx /\
  miny s = PrimFloat.sub (miny e) dy /\ maxy s = PrimFloat.add (maxy e) dy /\
  minz s = PrimFloat.sub (minz e) dz /\ maxz s = PrimFloat.add (maxz e) dz /\
  (inverted s = true -> r = setToNull s /\ isNull r = true) /\
  (inverted s = false -> r = s) /\
  inverted r = false.
Proof.
  cbv zeta. repeat (split; [reflexivity |]).
  unfold expandBy.
  destruct (PrimFloat.ltb (maxx (expandBy_extents e dx dy dz))
              (minx (expandBy_extents e dx dy dz))
            || PrimFloat.ltb (maxy (expandBy_extents e dx dy dz))
                 (miny (expandBy_extents e dx dy dz))
            || PrimFloat.ltb (maxz (expandBy_extents e dx dy dz))
                 (minz (expandBy_extents e dx dy dz))) eqn:E.
  - repeat split; try congruence; reflexivity.
  - repeat split; try congruence.
Qed.

(** The theorem at a box shrunk by more than its half-width: it disappears. *)
Lemma expandBy_shifts_or_nulls_witness :
  isNull (expandBy (mkEnvelope3d 0 2 0 2 0 2) (-2) 0 0) = true /\
  expandBy (mkEnvelope3d 0 2 0 2 0 2) 1 1 1 = mkEnvelope3d (-1) 3 (-1) 3 (-1) 3.
Proof.
  pose proof (expandBy_shifts_or_nulls (mkEnvelope3d 0 2 0 2 0 2) (-2) 0 0)
    as H.
  cbv zeta in H. destruct H as (_ & _ & _ & _ & _ & _ & H & _).
  split; [exact (proj2 (H eq_refl)) | reflexivity].
Defined.

(** ** SimpleSTRnode3d: removal of a child *)

Lemma removeItem_loop_found (h : heap) (itm : ptr) (l1 : list ptr) (c : ptr)
    (l2 : list ptr) :
  Forall (item_differs h itm) l1 -> getItem h c = Some itm ->
  removeItem_loop h itm (l1 ++ c :: l2) = Some (true, l1 ++ l2).
Proof.
  intros Hl1 Hc. induction Hl1 as [| p l1 (i & Hp & Hne) _ IH]; simpl.
  - rewrite Hc. simpl. now rewrite Z.eqb_refl.
  - rewrite Hp. simpl. apply Z.eqb_neq in Hne. rewrite Hne, IH. reflexivity.
Qed.

Lemma removeItem_loop_absent (h : heap) (itm : ptr) (cs : list ptr) :
  Forall (item_differs h itm) cs ->
  removeItem_loop h itm cs = Some (false, cs).
Proof.
  intros Hcs. induction Hcs as [| p cs (i & Hp & Hne) _ IH]; simpl.
  - reflexivity.
  - rewrite Hp. simpl. apply Z.eqb_neq in Hne. rewrite Hne, IH. reflexivity.
Qed.

Lemma removeItem_loop_erases (h : heap) (itm : ptr) (cs : list ptr)
    (b : bool) (cs' : list ptr) :
  removeItem_loop h itm cs = Some (b, cs') ->
  if b then erased_one cs cs' else cs' = cs.
Proof.
  revert b cs'. induction cs as [| c cs IH]; simpl; intros b cs' H.
  - now inversion H.
  - destruct (getItem h c) as [i |]; simpl in H; [| discriminate].
    destruct (i =? itm).
    + inversion H; subst. now exists [], c, cs'.
    + destruct (removeItem_loop h itm cs) as [[b0 r] |]; simpl in H;
        [| discriminate].
      inversion H; subst. specialize (IH _ _ eq_refl).
      destruct b; [| now f_equal].
      destruct IH as (l1 & x & l2 & -> & ->). now exists (c :: l1), x, l2.
Qed.

Lemma removeChild_loop_erases (child : ptr) (cs : list ptr) :
  if fst (removeChild_loop child cs)
  then erased_one cs (snd (removeChild_loop child cs))
  else snd (removeChild_loop child cs) = cs.
Proof.
  induction cs as [| c cs IH]; simpl.
  - reflexivity.
  - destruct (c =? child); simpl.
    + now exists [], c, cs.
    + destruct (fst (removeChild_loop child cs)); [| now f_equal].
      destruct IH as (l1 & x & l2 & Hcs & ->).
      exists (c :: l1), x, l2. now rewrite Hcs at 1.
Qed.

(** C2.  [removeItem] looks at the items of the direct children only, in
    their order: when some child holds [itm] it erases the first such child
    and returns true; when every child holds another item it returns false
    and changes nothing. *)
Theorem removeItem_first_match (h : heap) (this itm : ptr)
    (n : SimpleSTRnode3d) :
  h !! this = Some n ->
  (forall (l1 : list ptr) (c : ptr) (l2 : list ptr),
      childNodes n = l1 ++ c :: l2 ->
      Forall (item_differs h itm) l1 -> getItem h c = Some itm ->
      removeItem h this itm =
        Some (true,
              <[this := mkSimpleSTRnode3d (l1 ++ l2) (item n) (bounds n)
                          (level n)]> h)) /\
  (Forall (item_differs h itm) (childNodes n) ->
   removeItem h this itm = Some (false, h)).
Proof.
  intros Hn. unfold removeItem. rewrite Hn. simpl. split.
  - intros l1 c l2 Hcs Hl1 Hc.
    rewrite Hcs, (removeItem_loop_found h itm l1 c l2 Hl1 Hc). reflexivity.
  - intros Hcs. rewrite (removeItem_loop_absent h itm _ Hcs). reflexivity.
Qed.

(** The theorem on the example store: the item 11 is held by the second
    child. *)
Lemma removeItem_first_match_witness :
  removeItem example_heap 1 11 =
    Some (true,
          <[1 := mkSimpleSTRnode3d [2] nullptr (cube 0 6) 1]> example_heap).
Proof.
  refine (proj1 (removeItem_first_match example_heap 1 11 example_parent _)
            [2] 3 [] _ _ _).
  - reflexivity.
  - reflexivity.
  - constructor; [| constructor]. exists 10. split; [reflexivity | lia].
  - reflexivity.
Defined.

Lemma removal_frame_insert (h : heap) (this : ptr) (n : SimpleSTRnode3d)
    (cs' : list ptr) :
  erased_one (childNodes n) cs' ->
  removal_frame h this n true
    (<[this := mkSimpleSTRnode3d cs' (item n) (bounds n) (level n)]> h).
Proof.
  intros E. eexists. rewrite lookup_insert_eq.
  repeat split; try reflexivity; [exact E |].
  intros q Hq. now rewrite lookup_insert_ne.
Qed.

Lemma removal_frame_same (h : heap) (this : ptr) (n : SimpleSTRnode3d) :
  h !! this = Some n -> removal_frame h this n false h.
Proof. intros Hn. exists n. now repeat split. Qed.

(** C8.  A removal through [removeItem] or [removeChild] keeps the bounds,
    the level and the item of the node, keeps every other node, and either
    erases one entry of the child list, the others staying in their order,
    or leaves the child list as it is.  [removeChild] always returns, and
    [removeItem] returns whenever the children it reads exist. *)
Theorem removal_only_erases (h : heap) (this x : ptr) (n : SimpleSTRnode3d) :
  h !! this = Some n ->
  (exists (b : bool) (h' : heap),
      removeChild h this x = Some (b, h') /\ removal_frame h this n b h') /\
  (forall (b : bool) (h' : heap),
      removeItem h this x = Some (b, h') -> removal_frame h this n b h') /\
  (Forall (fun c => is_Some (h !! c)) (childNodes n) ->
   is_Some (removeItem h this x)).
Proof.
  intros Hn. repeat split.
  - unfold removeChild. rewrite Hn. simpl.
    pose proof (removeChild_loop_erases x (childNodes n)) as E.
    destruct (fst (removeChild_loop x (childNodes n))).
    + eexists _, _. split; [reflexivity |]. now apply removal_frame_insert.
    + eexists _, _. split; [reflexivity |]. now apply removal_frame_same.
  - intros b h' H. unfold removeItem in H. rewrite Hn in H. simpl in H.
    destruct (removeItem_loop h x (childNodes n)) as [[b0 cs'] |] eqn:E;
      simpl in H; [| discriminate].
    apply removeItem_loop_erases in E.
    destruct b0; inversion H; subst.
    + now apply removal_frame_insert.
    + now apply removal_frame_same.
  - intros Hcs. unfold removeItem. rewrite Hn. simpl.
    assert (Hl : is_Some (removeItem_loop h x (childNodes n))).
    { induction Hcs as [| c cs [cn Hc] _ IH]; simpl; [now eexists |].
      unfold getItem. rewrite Hc. simpl.
      destruct (item cn =? x); [now eexists |].
      destruct IH as [r ->]. now eexists. }
    destruct Hl as [[b cs'] ->]. simpl. destruct b; now eexists.
Qed.

(** The theorem on the example store: erasing the child at 2 keeps the
    bounds of the parent. *)
Lemma removal_only_erases_witness :
  exists (b : bool) (h' : heap),
    removeChild example_heap 1 2 = Some (b, h') /\
    removal_frame example_heap 1 example_parent b h'.
Proof.
  exact (proj1 (removal_only_erases example_heap 1 2 example_parent eq_refl)).
Defined.

(** ** SimpleSTRnode3d::addChildNode3d and the minimal cover *)

Lemma leb_refl (x : double) : isnan x = false -> PrimFloat.leb x x = true.
Proof. intros H. rewrite leb_key, H. cbn [negb andb]. apply Z.leb_refl. Qed.

Lemma leb_trans (x y z : double) :
  PrimFloat.leb x y = true -> PrimFloat.leb y z = true ->
  PrimFloat.leb x z = true.
Proof. intros H1 H2. double_keys. lia. Qed.





Ltac numeric_facts H :=
  unfold numeric in H;
  repeat (let H' := fresh in apply andb_prop in H as [H H']);
  repeat match goal with
    | H0 : negb (isnan _) = true |- _ => apply negb_true_iff in H0
    end.

Ltac covers_facts H :=
  unfold covers in H;
  repeat (let H' := fresh in apply andb_prop in H as [H H']).

Ltac split_andb := repeat (apply andb_true_intro; split).

Lemma covers_refl (e : Envelope3d) : numeric e = true -> covers e e = true.
Proof.
  intros H. numeric_facts H. unfold covers. split_andb; now apply leb_refl.
Qed.

Lemma covers_trans (a b c : Envelope3d) :
  covers a b = true -> covers b c = true -> covers a c = true.
Proof.
  intros Hab Hbc. covers_facts Hab. covers_facts Hbc. unfold covers.
  split_andb; eapply leb_trans; eassumption.
Qed.


Lemma canonical_numeric (e : Envelope3d) :
  canonical e = true -> isNull e = false -> numeric e = true.
Proof.
  unfold canonical, isNull, null_box, numeric. intros H Hn.
  rewrite Hn in *. rewrite !andb_false_r in H. cbn [orb andb] in H.
  double_keys; intuition congruence.
Qed.











(** ** Counting the nodes of a subtree *)

Lemma size_t_add_mod (a b : Z) :
  size_t_add (a mod 2 ^ 64) (b mod 2 ^ 64) = (a + b) mod 2 ^ 64.
Proof. unfold size_t_add. now rewrite <- Z.add_mod by lia. Qed.

(** The counting loop adds up, modulo 2^64, what [f] returns. *)
Lemma count_loop_sum (f : ptr -> option Z) (g : stree -> Z)
    (cs : list ptr) (kids : list stree) (c : Z) :
  Forall2 (fun p k => f p = Some (g k mod 2 ^ 64)) cs kids ->
  count_loop f (c mod 2 ^ 64) cs
  = Some ((c + foldr Z.add 0 (map g kids)) mod 2 ^ 64).
Proof.
  intros H. revert c. induction H as [| p k cs kids Hp _ IH]; intros c.
  - cbn. now rewrite Z.add_0_r.
  - cbn [count_loop map foldr]. rewrite Hp. cbn.
    rewrite size_t_add_mod, IH. do 2 f_equal. lia.
Qed.

Lemma repr_kids (h : heap) (Q : nat -> ptr -> stree -> Prop)
    (good : stree -> Prop) (fuel : nat) (cs : list ptr) (kids : list stree) :
  Forall2 (repr h) cs kids ->
  Forall (fun k => good k -> forall (p : ptr) (fuel : nat),
              repr h p k -> (height k <= fuel)%nat -> Q fuel p k) kids ->
  Forall good kids ->
  Forall (fun k => (height k <= fuel)%nat) kids ->
  Forall2 (Q fuel) cs kids.
Proof.
  intros H. induction H as [| p k cs kids Hp _ IH]; intros HQ Hg Hh.
  - constructor.
  - inversion HQ; subst. inversion Hg; subst. inversion Hh; subst.
    constructor; auto.
Qed.

Lemma foldr_and_Forall (P : stree -> Prop) (kids : list stree) :
  foldr and True (map P kids) -> Forall P kids.
Proof.
  induction kids as [| k kids IH]; cbn; [constructor |].
  intros [H1 H2]. constructor; auto.
Qed.

Lemma height_kids (kids : list stree) :
  Forall (fun k => (height k <= foldr Nat.max O (map height kids))%nat) kids.
Proof.
  induction kids as [| k kids IH]; cbn [map foldr]; constructor.
  - lia.
  - eapply Forall_impl; [exact IH |]. cbv beta. intros. lia.
Qed.

Lemma length_flatten_kids (kids : list stree) :
  Z.of_nat (length (concat (map flatten kids)))
  = foldr Z.add 0 (map (fun k => Z.of_nat (length (flatten k))) kids).
Proof.
  induction kids as [| k kids IH]; cbn [map concat foldr]; [reflexivity |].
  rewrite length_app, Nat2Z.inj_add, IH. reflexivity.
Qed.

Lemma length_leaves_kids (isLeaf : SimpleSTRnode3d -> bool)
    (kids : list stree) :
  Z.of_nat (length (List.filter isLeaf (concat (map flatten kids))))
  = foldr Z.add 0
      (map (fun k => Z.of_nat (length (List.filter isLeaf (flatten k)))) kids).
Proof.
  induction kids as [| k kids IH]; cbn [map concat foldr]; [reflexivity |].
  rewrite List.filter_app, length_app, Nat2Z.inj_add, IH. reflexivity.
Qed.

(** With fuel for the height of the tree, both counts are, modulo 2^64, the
    number of nodes and the number of leaves of the tree. *)
Lemma counts_mod (isLeaf : SimpleSTRnode3d -> bool) (h : heap) (t : stree) :
  leaves_childless isLeaf t ->
  forall (p : ptr) (fuel : nat),
    repr h p t -> (height t <= fuel)%nat ->
    getNumNodes isLeaf fuel h p
    = Some (Z.of_nat (length (flatten t)) mod 2 ^ 64) /\
    getNumLeafNodes isLeaf fuel h p
    = Some (Z.of_nat (length (List.filter isLeaf (flatten t))) mod 2 ^ 64).
Proof.
  induction t as [p0 n kids IH] using stree_ind.
  intros [Hleaf Hkids] p fuel Hrepr Hfuel.
  apply foldr_and_Forall in Hkids.
  inversion Hrepr as [? ? ? Hp Hcs]; subst.
  destruct fuel as [| fuel]; [cbn in Hfuel; lia |].
  cbn [height] in Hfuel.
  assert (Hh : Forall (fun k => (height k <= fuel)%nat) kids).
  { eapply Forall_impl; [apply height_kids |]. cbv beta. intros. lia. }
  pose proof (repr_kids h
    (fun fuel p k =>
       getNumNodes isLeaf fuel h p
       = Some (Z.of_nat (length (flatten k)) mod 2 ^ 64) /\
       getNumLeafNodes isLeaf fuel h p
       = Some (Z.of_nat (length (List.filter isLeaf (flatten k))) mod 2 ^ 64))
    (leaves_childless isLeaf) fuel _ _ Hcs IH Hkids Hh) as Hall.
  cbn [getNumNodes getNumLeafNodes]. rewrite Hp. cbn [mbind option_bind].
  cbn [flatten List.filter]. split.
  - destruct (isLeaf n) eqn:El.
    + rewrite (Hleaf eq_refl). reflexivity.
    + change 1 with (1 mod 2 ^ 64) at 1.
      rewrite (count_loop_sum _ (fun k => Z.of_nat (length (flatten k)))
                 _ kids).
      * cbn [length]. rewrite Nat2Z.inj_succ, length_flatten_kids.
        do 2 f_equal. lia.
      * eapply Forall2_impl; [exact Hall |]. cbv beta. tauto.
  - assert (Hl : forall c : Z,
      count_loop (getNumLeafNodes isLeaf fuel h) (c mod 2 ^ 64) (childNodes n)
      = Some ((c + Z.of_nat (length
                 (List.filter isLeaf (concat (map flatten kids)))))
              mod 2 ^ 64)).
    { intros c. rewrite length_leaves_kids.
      apply (count_loop_sum _
               (fun k => Z.of_nat (length (List.filter isLeaf (flatten k))))).
      eapply Forall2_impl; [exact Hall |]. cbv beta. tauto. }
    destruct (isLeaf n).
    + change 1 with (1 mod 2 ^ 64) at 1. rewrite Hl.
      cbn [length]. rewrite Nat2Z.inj_succ. do 2 f_equal. lia.
    + change 0 with (0 mod 2 ^ 64) at 1. rewrite Hl. reflexivity.
Qed.




(** ** SimpleSTRtree: the node capacity *)

(** C7, as stated, fails: the constructor accepts the capacity 1, and the
    tree it makes has a node capacity below 2. *)
Lemma capacity_one_accepted :
  SimpleSTRtree.getNodeCapacity (SimpleSTRtree.new nullptr 1) = 1 /\
  ~ 2 <= SimpleSTRtree.getNodeCapacity (SimpleSTRtree.new nullptr 1).
Proof. split; [reflexivity |]. cbn. lia. Qed.

Lemma step_keeps_capacity (pack pack3d : Z -> list ptr -> ptr)
    (t : SimpleSTRtree.tree) (op : SimpleSTRtree.operation) :
  SimpleSTRtree.nodeCapacity (SimpleSTRtree.step pack pack3d t op)
  = SimpleSTRtree.nodeCapacity t.
Proof.
  destruct op; cbn; try reflexivity;
    unfold SimpleSTRtree.build, SimpleSTRtree.build3d;
    now destruct (SimpleSTRtree.built t).
Qed.

(** C7, as amended.  [getNodeCapacity] returns the capacity that was given
    to the constructor, whatever it is, after any sequence of operations. *)
Theorem getNodeCapacity_fixed (pack pack3d : Z -> list ptr -> ptr)
    (indeterminate : ptr) (capacity : Z)
    (ops : list SimpleSTRtree.operation) :
  SimpleSTRtree.getNodeCapacity
    (SimpleSTRtree.run pack pack3d (SimpleSTRtree.new indeterminate capacity)
       ops)
  = capacity.
Proof.
  unfold SimpleSTRtree.getNodeCapacity, SimpleSTRtree.run.
  change capacity with
    (SimpleSTRtree.nodeCapacity (SimpleSTRtree.new indeterminate capacity))
    at 2.
  generalize (SimpleSTRtree.new indeterminate capacity).
  induction ops as [| op ops IH]; intros t; cbn [fold_left].
  - reflexivity.
  - rewrite IH. apply step_keeps_capacity.
Qed.

(** ** The textual form: searching and splitting *)

Lemma size_app (a b : cstring) : size (a ++ b) = size a + size b.
Proof. unfold size. rewrite length_app. lia. Qed.

Lemma size_nonneg (a : cstring) : 0 <= size a.
Proof. unfold size. lia. Qed.

Lemma size_cons (c : ascii) (a : cstring) : size (c :: a) = 1 + size a.
Proof. unfold size. cbn [length]. lia. Qed.

(** The characters before [pos] are skipped. *)
Lemma find_if_from_skip (P : ascii -> bool) (pre s : cstring) (i pos : Z) :
  i + size pre <= pos ->
  find_if_from P (pre ++ s) i pos = find_if_from P s (i + size pre) pos.
Proof.
  revert i. induction pre as [| a pre IH]; intros i Hle.
  - cbn. f_equal. unfold size. cbn. lia.
  - rewrite size_cons in *. pose proof (size_nonneg pre).
    cbn [app find_if_from].
    replace (pos <=? i) with false by (symmetry; apply Z.leb_gt; lia).
    cbn [andb]. rewrite IH by lia. f_equal. lia.
Qed.

(** The search stops at the first character that satisfies [P]. *)
Lemma find_if_from_hit (P : ascii -> bool) (tok : cstring) (c : ascii)
    (rest : cstring) (i pos : Z) :
  forallb (fun a => negb (P a)) tok = true -> P c = true -> pos <= i ->
  find_if_from P (tok ++ c :: rest) i pos = i + size tok.
Proof.
  revert i. induction tok as [| a tok IH]; intros i Htok Hc Hle.
  - cbn [app find_if_from]. rewrite Hc.
    replace (pos <=? i) with true by (symmetry; apply Z.leb_le; lia).
    cbn. unfold size. cbn. lia.
  - cbn [forallb] in Htok. apply andb_prop in Htok as [Ha Htok].
    apply negb_true_iff in Ha. cbn [app find_if_from]. rewrite Ha.
    rewrite andb_false_r, IH by (assumption || lia).
    rewrite size_cons. lia.
Qed.

Lemma find_if_from_miss (P : ascii -> bool) (tok : cstring) (i pos : Z) :
  forallb (fun a => negb (P a)) tok = true ->
  find_if_from P tok i pos = npos.
Proof.
  revert i. induction tok as [| a tok IH]; intros i Htok; [reflexivity |].
  cbn [forallb] in Htok. apply andb_prop in Htok as [Ha Htok].
  apply negb_true_iff in Ha. cbn [find_if_from]. rewrite Ha.
  rewrite andb_false_r. now apply IH.
Qed.

Lemma find_if_from_past (P : ascii -> bool) (s : cstring) (i pos : Z) :
  i + size s <= pos -> find_if_from P s i pos = npos.
Proof.
  revert i. induction s as [| a s IH]; intros i Hle; [reflexivity |].
  rewrite size_cons in Hle. pose proof (size_nonneg s).
  cbn [find_if_from].
  replace (pos <=? i) with false by (symmetry; apply Z.leb_gt; lia).
  cbn [andb]. apply IH. lia.
Qed.

Lemma substr_app (pre mid post : cstring) (count : Z) :
  Z.min count (size mid + size post) = size mid ->
  substr (pre ++ mid ++ post) (size pre) count = Some mid.
Proof.
  intros Hmin. unfold substr. rewrite !size_app.
  pose proof (size_nonneg mid). pose proof (size_nonneg post).
  replace (size pre + (size mid + size post) <? size pre) with false
    by (symmetry; apply Z.ltb_ge; lia).
  replace (size pre + (size mid + size post) - size pre)
    with (size mid + size post) by lia.
  rewrite Hmin. unfold size. rewrite !Nat2Z.id.
  rewrite drop_app_length, take_app_length. reflexivity.
Qed.

(** The loop of [split], started at the beginning of a token, returns the
    tokens in their order. *)
Lemma split_loop_tokens (delimiters : cstring) (rest : list (ascii * cstring)) :
  forall (str pre t : cstring) (acc : list cstring) (fuel : nat),
    str = pre ++ t ++ separated rest ->
    free_of delimiters t = true ->
    Forall (fun x => is_one_of delimiters (fst x) = true /\
                     snd x <> [] /\ free_of delimiters (snd x) = true) rest ->
    size str < npos ->
    (length rest + 2 <= fuel)%nat ->
    split_loop fuel str delimiters (size pre)
      (find_first_of str delimiters (size pre)) acc
    = Some (acc ++ t :: map snd rest).
Proof.
  induction rest as [| [d t'] rest IH];
    intros str pre t acc fuel Hstr Ht Hrest Hsize Hfuel.
  - cbn [separated map concat] in Hstr. rewrite app_nil_r in Hstr.
    assert (Hpos : find_first_of str delimiters (size pre) = npos).
    { unfold find_first_of. rewrite Hstr, find_if_from_skip by lia.
      now apply find_if_from_miss. }
    rewrite Hpos.
    destruct fuel as [| [| fuel]]; [cbn in Hfuel; lia .. |].
    pose proof (size_nonneg pre). pose proof (size_nonneg t).
    assert (Hlt : size pre < npos) by (rewrite Hstr, size_app in Hsize; lia).
    cbn [split_loop]. rewrite Z.eqb_refl.
    replace (size pre =? npos) with false by (symmetry; apply Z.eqb_neq; lia).
    cbn [negb orb].
    assert (Hsub : substr str (size pre) (size_t_sub npos (size pre))
                   = Some t).
    { rewrite Hstr. rewrite <- (app_nil_r t) at 1. apply substr_app.
      unfold size_t_sub.
      rewrite Z.mod_small by (unfold npos, size_t_max in *; lia).
      rewrite Hstr, size_app in Hsize. change (size []) with 0. lia. }
    rewrite Hsub. cbn [mbind option_bind].
    assert (Hfn : find_first_not_of str delimiters npos = npos)
      by (apply find_if_from_past; lia).
    assert (Hff : find_first_of str delimiters npos = npos)
      by (apply find_if_from_past; lia).
    rewrite Hfn, Hff, Z.eqb_refl. reflexivity.
  - apply Forall_cons in Hrest as [(Hd & Hne & Hfree) Hrest'].
    cbn [fst snd] in Hd, Hne, Hfree.
    cbn [separated map concat fst snd] in Hstr. fold (separated rest) in Hstr.
    destruct t' as [| c t'']; [congruence |].
    pose proof (size_nonneg pre). pose proof (size_nonneg t).
    pose proof (size_nonneg t''). pose proof (size_nonneg (separated rest)).
    assert (Hsz : size str
                  = size pre + size t + 2 + size t'' + size (separated rest)).
    { rewrite Hstr. cbn [app]. rewrite ?size_app, ?size_cons, ?size_app.
      lia. }
    assert (Hpos : find_first_of str delimiters (size pre)
                   = size pre + size t).
    { unfold find_first_of. rewrite Hstr, find_if_from_skip by lia.
      cbn [app]. rewrite find_if_from_hit; [lia | exact Ht | exact Hd | lia]. }
    rewrite Hpos.
    destruct fuel as [| fuel]; [cbn in Hfuel; lia |].
    cbn [split_loop].
    replace (size pre + size t =? npos) with false
      by (symmetry; apply Z.eqb_neq; lia).
    cbn [negb orb].
    assert (Hsub : substr str (size pre)
                     (size_t_sub (size pre + size t) (size pre)) = Some t).
    { rewrite Hstr. apply substr_app.
      unfold size_t_sub.
      rewrite Z.mod_small by (unfold npos, size_t_max in *; lia).
      pose proof (size_nonneg ((d :: c :: t'') ++ separated rest)). lia. }
    rewrite Hsub. cbn [mbind option_bind].
    cbn [free_of forallb] in Hfree. apply andb_prop in Hfree as [Hc Hfree].
    assert (Hlast : find_first_not_of str delimiters (size pre + size t)
                    = size (pre ++ t ++ [d])).
    { unfold find_first_not_of. rewrite Hstr, app_assoc.
      rewrite find_if_from_skip by (rewrite size_app; lia).
      cbn [app find_if_from]. rewrite Hd. cbn [negb]. rewrite andb_false_r.
      rewrite Hc.
      replace (size pre + size t <=? 0 + size (pre ++ t) + 1) with true
        by (symmetry; apply Z.leb_le; rewrite size_app; lia).
      cbn [andb]. rewrite !size_app, !size_cons. change (size []) with 0.
      lia. }
    rewrite Hlast.
    rewrite (IH str (pre ++ t ++ [d]) (c :: t'') (acc ++ [t]) fuel).
    + rewrite <- app_assoc. reflexivity.
    + rewrite Hstr, <- !app_assoc. reflexivity.
    + cbn [free_of forallb]. now rewrite Hc.
    + exact Hrest'.
    + exact Hsize.
    + cbn [length] in Hfuel. lia.
Qed.

Lemma envelope_text_shape (t0 t1 t2 t3 t4 t5 : cstring) :
  envelope_text t0 t1 t2 t3 t4 t5
  = list_ascii_of_string "Env[" ++
    (t0 ++ separated (envelope_rest t1 t2 t3 t4 t5)) ++ [].
Proof.
  unfold envelope_text, envelope_rest, separated.
  cbn [map concat fst snd list_ascii_of_string app].
  rewrite !app_nil_r. repeat (f_equal; try (rewrite <- !app_assoc; cbn [app])).
Qed.

Lemma token_free (t : cstring) :
  token t = true ->
  t <> [] /\ free_of (list_ascii_of_string ":,") t = true.
Proof.
  unfold token. intros H. apply andb_prop in H as [Hlen Hfree].
  split; [| exact Hfree]. intros ->. discriminate.
Qed.

(** The constructor on a text of six tokens: whatever the tokens are, it
    returns the envelope of what [strtod] makes of them; the last token comes
    with the closing bracket. *)
Lemma Envelope3d_of_string_tokens (strtod : cstring -> double)
    (t0 t1 t2 t3 t4 t5 : cstring) :
  token t0 = true -> token t1 = true -> token t2 = true ->
  token t3 = true -> token t4 = true -> token t5 = true ->
  size (envelope_text t0 t1 t2 t3 t4 t5) < npos ->
  Envelope3d_of_string strtod (envelope_text t0 t1 t2 t3 t4 t5)
  = Some (init (strtod (c_str t0)) (strtod (c_str t1)) (strtod (c_str t2))
            (strtod (c_str t3)) (strtod (c_str t4))
            (strtod (c_str (t5 ++ list_ascii_of_string "]")))).
Proof.
  intros H0 H1 H2 H3 H4 H5 Hsize.
  apply token_free in H0 as [_ F0]. apply token_free in H1 as [N1 F1].
  apply token_free in H2 as [N2 F2]. apply token_free in H3 as [N3 F3].
  apply token_free in H4 as [N4 F4]. apply token_free in H5 as [N5 F5].
  rewrite envelope_text_shape in *.
  set (rest := envelope_rest t1 t2 t3 t4 t5) in *.
  set (coord := t0 ++ separated rest) in *.
  assert (Hcoord : size (list_ascii_of_string "Env[" ++ coord ++ [])
                   = 4 + size coord).
  { rewrite !size_app. change (size []) with 0.
    change (size (list_ascii_of_string "Env[")) with 4. lia. }
  rewrite Hcoord in Hsize. pose proof (size_nonneg coord) as Hnn.
  unfold Envelope3d_of_string.
  assert (Hfind : find (list_ascii_of_string "Env[" ++ coord ++ []) "["%char
                  = 3) by reflexivity.
  rewrite Hfind, Hcoord. change (size_t_add 3 1) with 4.
  replace (size_t_sub (size_t_sub (4 + size coord) 1) 1)
    with (size coord + 2).
  2:{ unfold size_t_sub. unfold npos, size_t_max in Hsize.
      rewrite (Z.mod_small (4 + size coord - 1)) by lia.
      rewrite Z.mod_small by lia. lia. }
  change 4 with (size (list_ascii_of_string "Env[")).
  rewrite substr_app by (change (size []) with 0; lia).
  cbn [mbind option_bind]. unfold split.
  change 0 with (size []) at 1 2.
  rewrite (split_loop_tokens (list_ascii_of_string ":,") rest coord [] t0).
  - reflexivity.
  - reflexivity.
  - exact F0.
  - unfold rest, envelope_rest.
    repeat (apply Forall_cons; split;
            [cbn [fst snd]; repeat split; try assumption |]).
    + intros E. apply app_eq_nil in E as [_ E]. discriminate.
    + unfold free_of in *. rewrite forallb_app, F5. reflexivity.
    + constructor.
  - lia.
  - change (length rest) with 5%nat.
    assert (5 <= length (separated rest))%nat;
      [| unfold coord; rewrite length_app; lia].
    unfold rest, envelope_rest, separated.
    cbn [map concat fst snd]. rewrite !length_app. cbn [length]. lia.
Qed.

(** ** The round trip through the textual form *)

Lemma init_axis (x1 x2 lo hi : double) :
  PrimFloat.eqb x1 lo = true -> PrimFloat.eqb x2 hi = true ->
  PrimFloat.leb lo hi = true ->
  let p := if PrimFloat.ltb x1 x2 then (x1, x2) else (x2, x1) in
  PrimFloat.eqb (fst p) lo = true /\ PrimFloat.eqb (snd p) hi = true.
Proof.
  intros H1 H2 Hle. cbv zeta.
  destruct (PrimFloat.ltb x1 x2) eqn:E; cbn [fst snd]; [now split |].
  double_keys. split; lia.
Qed.

Lemma init_same_extents (x1 x2 y1 y2 z1 z2 : double) (e : Envelope3d) :
  PrimFloat.eqb x1 (minx e) = true -> PrimFloat.eqb x2 (maxx e) = true ->
  PrimFloat.eqb y1 (miny e) = true -> PrimFloat.eqb y2 (maxy e) = true ->
  PrimFloat.eqb z1 (minz e) = true -> PrimFloat.eqb z2 (maxz e) = true ->
  PrimFloat.leb (minx e) (maxx e) = true ->
  PrimFloat.leb (miny e) (maxy e) = true ->
  PrimFloat.leb (minz e) (maxz e) = true ->
  same_extents (init x1 x2 y1 y2 z1 z2) e = true.
Proof.
  intros Hx1 Hx2 Hy1 Hy2 Hz1 Hz2 Lx Ly Lz.
  pose proof (init_axis _ _ _ _ Hx1 Hx2 Lx) as Ax.
  pose proof (init_axis _ _ _ _ Hy1 Hy2 Ly) as Ay.
  pose proof (init_axis _ _ _ _ Hz1 Hz2 Lz) as Az.
  cbv zeta in Ax, Ay, Az. unfold init, same_extents.
  destruct (PrimFloat.ltb x1 x2), (PrimFloat.ltb y1 y2),
    (PrimFloat.ltb z1 z2); cbn [fst snd minx maxx miny maxy minz maxz] in *;
    destruct Ax as [-> ->], Ay as [-> ->], Az as [-> ->]; reflexivity.
Qed.

(** C3, as amended.  For a non-null envelope with min <= max on every axis,
    each extent of which is printed as a token that [strtod] reads back as
    that extent, the text written by [operator<<] is parsed by the string
    constructor into an envelope with the same six extents. *)
Theorem roundtrip_of_surviving_extents (put : double -> cstring)
    (strtod : cstring -> double) (e : Envelope3d) :
  well_formed e = true -> isNull e = false ->
  survives put strtod e = true ->
  size (operator_shl put e) < npos ->
  exists e' : Envelope3d,
    Envelope3d_of_string strtod (operator_shl put e) = Some e' /\
    same_extents e' e = true.
Proof.
  intros Hwf Hnn Hs Hsize.
  unfold well_formed in Hwf. rewrite Hnn in Hwf. cbn [orb] in Hwf.
  apply andb_prop in Hwf as [Hwf Lz]. apply andb_prop in Hwf as [Lx Ly].
  unfold survives in Hs.
  do 11 (let H := fresh "S" in apply andb_prop in Hs as [Hs H]).
  change (operator_shl put e) with
    (envelope_text (put (minx e)) (put (maxx e)) (put (miny e))
       (put (maxy e)) (put (minz e)) (put (maxz e))) in *.
  rewrite Envelope3d_of_string_tokens by assumption.
  eexists. split; [reflexivity |].
  now apply init_same_extents.
Qed.

(** The theorem with the numerals of the C library, on a box whose extents
    have few digits. *)
Lemma roundtrip_of_surviving_extents_witness :
  exists e' : Envelope3d,
    Envelope3d_of_string Libc.strtod
      (operator_shl Libc.put_double (mkEnvelope3d 0.5 2 (-1.25) 1 0 100000))
    = Some e' /\
    same_extents e' (mkEnvelope3d 0.5 2 (-1.25) 1 0 100000) = true.
Proof.
  apply (roundtrip_of_surviving_extents Libc.put_double Libc.strtod
           (mkEnvelope3d 0.5 2 (-1.25) 1 0 100000)).
  - vm_compute. reflexivity.
  - vm_compute. reflexivity.
  - vm_compute. reflexivity.
  - vm_compute. reflexivity.
Defined.

(** C3, as stated, fails: the stream writes six significant digits, so the
    envelope whose minx is 0.1234567 is written [Env[0.123457:1,0:1,0:1]]
    and parsed into an envelope whose minx is 0.123457. *)
Lemma roundtrip_loses_digits :
  isNull seven_digits = false /\
  operator_shl Libc.put_double seven_digits
  = list_ascii_of_string "Env[0.123457:1,0:1,0:1]" /\
  exists e' : Envelope3d,
    Envelope3d_of_string Libc.strtod
      (operator_shl Libc.put_double seven_digits) = Some e' /\
    PrimFloat.eqb (minx e') (minx seven_digits) = false.
Proof.
  split; [reflexivity |]. split; [vm_compute; reflexivity |].
  eexists. split; vm_compute; reflexivity.
Qed.

(** ** Malformed texts *)

(** C5, as amended.  Parsing is best-effort and reports no numeric-parse
    failure: on a text of six tokens the constructor returns an envelope,
    made of what [strtod] returns for each token, whatever the tokens
    are. *)
Theorem malformed_tokens_accepted (strtod : cstring -> double)
    (t0 t1 t2 t3 t4 t5 : cstring) :
  token t0 = true -> token t1 = true -> token t2 = true ->
  token t3 = true -> token t4 = true -> token t5 = true ->
  size (envelope_text t0 t1 t2 t3 t4 t5) < npos ->
  exists e : Envelope3d,
    Envelope3d_of_string strtod (envelope_text t0 t1 t2 t3 t4 t5) = Some e /\
    e = init (strtod (c_str t0)) (strtod (c_str t1)) (strtod (c_str t2))
          (strtod (c_str t3)) (strtod (c_str t4))
          (strtod (c_str (t5 ++ list_ascii_of_string "]"))).
Proof.
  intros H0 H1 H2 H3 H4 H5 Hsize. eexists. split; [| reflexivity].
  now apply Envelope3d_of_string_tokens.
Qed.

(** The theorem with the [strtod] of the C library, on tokens none of which
    is a numeral. *)
Lemma malformed_tokens_accepted_witness :
  exists e : Envelope3d,
    Envelope3d_of_string Libc.strtod
      (list_ascii_of_string "Env[a:b,c:d,e:f]") = Some e /\
    e = mkEnvelope3d 0 0 0 0 0 0.
Proof.
  destruct (malformed_tokens_accepted Libc.strtod
              (Libc.chars "a") (Libc.chars "b") (Libc.chars "c")
              (Libc.chars "d") (Libc.chars "e") (Libc.chars "f"))
    as (e & He & Hinit); try reflexivity.
  exists e. split; [exact He |]. rewrite Hinit. vm_compute. reflexivity.
Defined.

(** C5, as stated, fails: a text whose tokens are not numerals, and a text
    with a token out of the range of doubles, are both turned into
    envelopes, without any failure. *)
Lemma malformed_text_gives_envelope :
  Envelope3d_of_string Libc.strtod (list_ascii_of_string "Env[a:b,c:d,e:f]")
  = Some (mkEnvelope3d 0 0 0 0 0 0) /\
  Envelope3d_of_string Libc.strtod
    (list_ascii_of_string "Env[1e999:x,3:4,5:6]")
  = Some (mkEnvelope3d 0 infinity 3 4 5 6).
Proof. split; vm_compute; reflexivity. Qed.

(** * Further properties of the code *)

(** ** CoordinateXYZ: comparison and equality *)

Lemma ltb_asym (x y : double) :
  PrimFloat.ltb x y = true -> PrimFloat.ltb y x = false.
Proof.
  rewrite !ltb_key. destruct (isnan x), (isnan y); cbn; try discriminate.
  intros H. apply Z.ltb_lt in H. apply Z.ltb_ge. lia.
Qed.

Lemma eqb_sym (x y : double) : PrimFloat.eqb x y = PrimFloat.eqb y x.
Proof.
  rewrite !eqb_key, (Z.eqb_sym (key x)).
  now destruct (isnan x), (isnan y).
Qed.

(** On doubles that are not NaN, neither is less than the other exactly
    when they are equal. *)
Lemma eqb_neither_less (x y : double) :
  isnan x = false -> isnan y = false ->
  PrimFloat.eqb x y
  = negb (PrimFloat.ltb x y) && negb (PrimFloat.ltb y x).
Proof.
  intros Hx Hy. rewrite !ltb_key, eqb_key, Hx, Hy. cbn [negb andb].
  destruct (Z.ltb_spec (key x) (key y)), (Z.ltb_spec (key y) (key x)),
    (Z.eqb_spec (key x) (key y)); cbn; try reflexivity; lia.
Qed.

Ltac coordinate_numeric H :=
  unfold CoordinateXYZ.numeric in H;
  repeat (let H' := fresh in apply andb_prop in H as [H H']);
  repeat match goal with
    | H0 : negb (isnan _) = true |- _ => apply negb_true_iff in H0
    end.

(** X1.  [compareTo] is antisymmetric on all coordinates, NaN included:
    swapping the operands negates the result. *)
Theorem compareTo_antisymmetric (a b : CoordinateXYZ.t) :
  CoordinateXYZ.compareTo b a = - CoordinateXYZ.compareTo a b.
Proof.
  unfold CoordinateXYZ.compareTo.
  destruct (PrimFloat.ltb (CoordinateXYZ.x a) (CoordinateXYZ.x b)) eqn:X1;
    [rewrite (ltb_asym _ _ X1); reflexivity |].
  destruct (PrimFloat.ltb (CoordinateXYZ.x b) (CoordinateXYZ.x a)) eqn:X2;
    [reflexivity |].
  destruct (PrimFloat.ltb (CoordinateXYZ.y a) (CoordinateXYZ.y b)) eqn:Y1;
    [rewrite (ltb_asym _ _ Y1); reflexivity |].
  destruct (PrimFloat.ltb (CoordinateXYZ.y b) (CoordinateXYZ.y a)) eqn:Y2;
    [reflexivity |].
  destruct (PrimFloat.ltb (CoordinateXYZ.z a) (CoordinateXYZ.z b)) eqn:Z1;
    [rewrite (ltb_asym _ _ Z1); reflexivity |].
  destruct (PrimFloat.ltb (CoordinateXYZ.z b) (CoordinateXYZ.z a)) eqn:Z2;
    reflexivity.
Qed.

Lemma equals3D_fields (a b : CoordinateXYZ.t) :
  CoordinateXYZ.equals3D a b
  = PrimFloat.eqb (CoordinateXYZ.x a) (CoordinateXYZ.x b)
    && PrimFloat.eqb (CoordinateXYZ.y a) (CoordinateXYZ.y b)
    && PrimFloat.eqb (CoordinateXYZ.z a) (CoordinateXYZ.z b).
Proof.
  unfold CoordinateXYZ.equals3D.
  destruct (PrimFloat.eqb (CoordinateXYZ.x a) (CoordinateXYZ.x b)),
    (PrimFloat.eqb (CoordinateXYZ.y a) (CoordinateXYZ.y b)),
    (PrimFloat.eqb (CoordinateXYZ.z a) (CoordinateXYZ.z b)); reflexivity.
Qed.

(** X2.  On coordinates without NaN, [compareTo] returns 0 exactly when
    [operator==] holds, and [operator!=] is its negation. *)
Theorem compareTo_zero_iff_equal (a b : CoordinateXYZ.t) :
  CoordinateXYZ.numeric a = true -> CoordinateXYZ.numeric b = true ->
  (CoordinateXYZ.compareTo a b = 0 <-> CoordinateXYZ.operator_eq a b = true)
  /\ CoordinateXYZ.operator_ne a b = negb (CoordinateXYZ.operator_eq a b).
Proof.
  intros Ha Hb. split; [| reflexivity].
  coordinate_numeric Ha. coordinate_numeric Hb.
  unfold CoordinateXYZ.operator_eq. rewrite equals3D_fields.
  rewrite !eqb_neither_less by assumption.
  unfold CoordinateXYZ.compareTo.
  destruct (PrimFloat.ltb (CoordinateXYZ.x a) (CoordinateXYZ.x b)),
    (PrimFloat.ltb (CoordinateXYZ.x b) (CoordinateXYZ.x a)),
    (PrimFloat.ltb (CoordinateXYZ.y a) (CoordinateXYZ.y b)),
    (PrimFloat.ltb (CoordinateXYZ.y b) (CoordinateXYZ.y a)),
    (PrimFloat.ltb (CoordinateXYZ.z a) (CoordinateXYZ.z b)),
    (PrimFloat.ltb (CoordinateXYZ.z b) (CoordinateXYZ.z a));
    cbn; split; intros; (reflexivity || discriminate).
Qed.

Lemma compareTo_zero_iff_equal_witness :
  CoordinateXYZ.compareTo (CoordinateXYZ.mk 1 2 0) (CoordinateXYZ.mk 1 2 (-0))
  = 0 <->
  CoordinateXYZ.operator_eq (CoordinateXYZ.mk 1 2 0)
    (CoordinateXYZ.mk 1 2 (-0)) = true.
Proof.
  exact (proj1 (compareTo_zero_iff_equal (CoordinateXYZ.mk 1 2 0)
                  (CoordinateXYZ.mk 1 2 (-0)) eq_refl eq_refl)).
Defined.

(** [compareTo] on coordinates without NaN, read on keys. *)
Lemma compareTo_keys (a b : CoordinateXYZ.t) :
  CoordinateXYZ.numeric a = true -> CoordinateXYZ.numeric b = true ->
  CoordinateXYZ.compareTo a b =
    if key (CoordinateXYZ.x a) <? key (CoordinateXYZ.x b) then -1
    else if key (CoordinateXYZ.x b) <? key (CoordinateXYZ.x a) then 1
    else if key (CoordinateXYZ.y a) <? key (CoordinateXYZ.y b) then -1
    else if key (CoordinateXYZ.y b) <? key (CoordinateXYZ.y a) then 1
    else if key (CoordinateXYZ.z a) <? key (CoordinateXYZ.z b) then -1
    else if key (CoordinateXYZ.z b) <? key (CoordinateXYZ.z a) then 1
    else 0.
Proof.
  intros Ha Hb. coordinate_numeric Ha. coordinate_numeric Hb.
  unfold CoordinateXYZ.compareTo. rewrite !ltb_key.
  repeat match goal with
    | H : isnan _ = false |- _ => rewrite H; clear H
    end.
  reflexivity.
Qed.

(** X3.  On coordinates without NaN, [compareTo] orders transitively: below
    composed with below is below. *)
Theorem compareTo_transitive (a b c : CoordinateXYZ.t) :
  CoordinateXYZ.numeric a = true -> CoordinateXYZ.numeric b = true ->
  CoordinateXYZ.numeric c = true ->
  CoordinateXYZ.compareTo a b = -1 -> CoordinateXYZ.compareTo b c = -1 ->
  CoordinateXYZ.compareTo a c = -1.
Proof.
  intros Ha Hb Hc.
  rewrite (compareTo_keys a b Ha Hb), (compareTo_keys b c Hb Hc),
    (compareTo_keys a c Ha Hc).
  generalize (key (CoordinateXYZ.x a)) (key (CoordinateXYZ.y a))
    (key (CoordinateXYZ.z a)) (key (CoordinateXYZ.x b))
    (key (CoordinateXYZ.y b)) (key (CoordinateXYZ.z b))
    (key (CoordinateXYZ.x c)) (key (CoordinateXYZ.y c))
    (key (CoordinateXYZ.z c)).
  intros ax ay az bx by_ bz cx cy cz.
  repeat match goal with
    | |- context [if ?u <? ?v then _ else _] =>
        destruct (Z.ltb_spec u v); try (intros; (lia || discriminate))
    end.
Qed.

Lemma compareTo_transitive_witness :
  CoordinateXYZ.compareTo (CoordinateXYZ.mk 0 0 0) (CoordinateXYZ.mk 0 1 5)
  = -1.
Proof.
  apply (compareTo_transitive (CoordinateXYZ.mk 0 0 0)
           (CoordinateXYZ.mk 0 0 1) (CoordinateXYZ.mk 0 1 5));
    reflexivity.
Defined.

(** X4.  The null coordinate is null and not valid; it is not equal to
    itself, although [compareTo] ranks it level with itself. *)
Theorem null_coordinate_unequal_to_itself (c : CoordinateXYZ.t) :
  CoordinateXYZ.isNull (CoordinateXYZ.setNull c) = true /\
  CoordinateXYZ.isValid (CoordinateXYZ.setNull c) = false /\
  CoordinateXYZ.operator_eq (CoordinateXYZ.setNull c)
    (CoordinateXYZ.setNull c) = false /\
  CoordinateXYZ.compareTo (CoordinateXYZ.setNull c) (CoordinateXYZ.setNull c)
  = 0.
Proof. repeat split. Qed.

(** ** CoordinateXYZ: distances *)

Lemma SFabs_binary_round_aux (s : bool) (m e : Z) (l : location) :
  SFabs (binary_round_aux prec emax s m e l)
  = SFabs (binary_round_aux prec emax false m e l).
Proof.
  unfold binary_round_aux.
  destruct (shr_fexp prec emax m e l) as [mrs' e'].
  destruct (shr_fexp prec emax _ e' loc_Exact) as [mrs'' e''].
  destruct (shr_m mrs''); [reflexivity | | reflexivity].
  now destruct (e'' <=? emax - prec).
Qed.

Lemma SFabs_binary_normalize_opp (m e : Z) (sz sz' : bool) :
  SFabs (binary_normalize prec emax (- m) e sz)
  = SFabs (binary_normalize prec emax m e sz').
Proof.
  assert (H : forall p : positive,
             SFabs (binary_round prec emax true p e)
             = SFabs (binary_round prec emax false p e)).
  { intros p. unfold binary_round.
    destruct (shl_align p e _) as [mz ez]. apply SFabs_binary_round_aux. }
  destruct m as [| p | p]; cbn [Z.opp binary_normalize];
    [reflexivity | apply H | symmetry; apply H].
Qed.

(** The two differences of two doubles have the same absolute value. *)
Lemma SFabs_sub_comm (u v : spec_float) :
  SFabs (SF64sub u v) = SFabs (SF64sub v u).
Proof.
  unfold SF64sub.
  destruct u as [su | su | | su mu eu], v as [sv | sv | | sv mv ev];
    cbn [SFsub]; try reflexivity;
    try (destruct su, sv; reflexivity).
  rewrite (Z.min_comm ev eu).
  rewrite <- (SFabs_binary_normalize_opp
                (cond_Zopp su (Z.pos (fst (shl_align mu eu (Z.min eu ev))))
                 - cond_Zopp sv (Z.pos (fst (shl_align mv ev (Z.min eu ev)))))
                _ false false).
  do 2 f_equal. lia.
Qed.

Lemma SFmul_square_abs (d : spec_float) :
  SF64mul d d = SF64mul (SFabs d) (SFabs d).
Proof. destruct d as [s | s | | s m e]; cbn; try reflexivity; now destruct s. Qed.

Lemma square_difference_comm (x y : double) :
  PrimFloat.mul (PrimFloat.sub x y) (PrimFloat.sub x y)
  = PrimFloat.mul (PrimFloat.sub y x) (PrimFloat.sub y x).
Proof.
  apply Prim2SF_inj. rewrite !mul_spec, !sub_spec.
  rewrite SFmul_square_abs, (SFmul_square_abs (SF64sub _ _)).
  now rewrite SFabs_sub_comm.
Qed.

(** X5.  [distanceSquared] and [distance] are symmetric on all coordinates:
    the two orders give the same number, zero of the same sign or infinity,
    or a NaN both.  (A [double] is modelled with one NaN: the sign and the
    payload of a NaN result are not part of the statement.) *)
Theorem distance_symmetric (a b : CoordinateXYZ.t) :
  CoordinateXYZ.distanceSquared a b = CoordinateXYZ.distanceSquared b a /\
  CoordinateXYZ.distance a b = CoordinateXYZ.distance b a.
Proof.
  unfold CoordinateXYZ.distanceSquared, CoordinateXYZ.distance. cbv zeta.
  rewrite (square_difference_comm (CoordinateXYZ.x a)),
    (square_difference_comm (CoordinateXYZ.y a)),
    (square_difference_comm (CoordinateXYZ.z a)).
  split; reflexivity.
Qed.

Lemma is_finite_sf (x : double) :
  PrimFloat.is_finite x = true ->
  (exists s, Prim2SF x = S754_zero s) \/
  (exists s m e, Prim2SF x = S754_finite s m e).
Proof.
  unfold PrimFloat.is_finite, PrimFloat.is_infinity.
  fold (isnan x). rewrite isnan_sf, FloatAxioms.eqb_spec, abs_spec.
  change (Prim2SF infinity) with (S754_infinity false).
  destruct (Prim2SF x) as [s | s | | s m e]; cbn; try discriminate; eauto.
Qed.

Lemma SFsub_self (u : spec_float) :
  (exists s, u = S754_zero s) \/ (exists s m e, u = S754_finite s m e) ->
  SF64sub u u = S754_zero false.
Proof.
  intros [[s ->] | (s & m & e & ->)]; unfold SF64sub; cbn [SFsub].
  - now destruct s.
  - rewrite Z.min_id, Z.sub_diag. reflexivity.
Qed.

Lemma sub_self_finite (x : double) :
  PrimFloat.is_finite x = true -> PrimFloat.sub x x = 0%float.
Proof.
  intros H. apply Prim2SF_inj. rewrite sub_spec.
  now rewrite (SFsub_self _ (is_finite_sf x H)).
Qed.

(** X6.  A valid coordinate, one whose ordinates are finite, is at distance
    0 from itself. *)
Theorem distance_to_itself (a : CoordinateXYZ.t) :
  CoordinateXYZ.isValid a = true ->
  CoordinateXYZ.distanceSquared a a = 0%float /\
  CoordinateXYZ.distance a a = 0%float.
Proof.
  unfold CoordinateXYZ.isValid. intros H.
  apply andb_prop in H as [H Hz]. apply andb_prop in H as [Hx Hy].
  unfold CoordinateXYZ.distanceSquared, CoordinateXYZ.distance. cbv zeta.
  rewrite (sub_self_finite _ Hx), (sub_self_finite _ Hy),
    (sub_self_finite _ Hz).
  split; reflexivity.
Qed.

Lemma distance_to_itself_witness :
  CoordinateXYZ.distance (CoordinateXYZ.mk 1.5 (-2) 0x1p1000)
    (CoordinateXYZ.mk 1.5 (-2) 0x1p1000) = 0%float.
Proof.
  exact (proj2 (distance_to_itself (CoordinateXYZ.mk 1.5 (-2) 0x1p1000)
                  eq_refl)).
Defined.

(** The difference of two equal doubles is a zero, or a NaN when they are
    the same infinity. *)
Lemma SFsub_equal (u v : spec_float) :
  SFeqb u v = true ->
  SFabs (SF64sub u v) = S754_zero false \/ SFabs (SF64sub u v) = S754_nan.
Proof.
  unfold SFeqb, SF64sub.
  destruct u as [su | su | | su mu eu], v as [sv | sv | | sv mv ev];
    cbn [SFcompare SFsub]; try discriminate;
    try solve [destruct su, sv; (discriminate || (cbn; auto))].
  destruct su, sv; try discriminate;
    destruct (Z.compare_spec eu ev) as [He | He | He]; try discriminate;
    destruct (PosDef.Pos.compare_cont Eq mu mv) eqn:Hm; try discriminate;
    apply Pos.compare_eq in Hm; subst; intros _; left;
    rewrite Z.min_id, Z.sub_diag; reflexivity.
Qed.

Lemma within_tolerance (x y tolerance : double) :
  PrimFloat.eqb x y = true -> PrimFloat.ltb tolerance 0 = false ->
  PrimFloat.ltb tolerance (PrimFloat.abs (PrimFloat.sub x y)) = false.
Proof.
  rewrite FloatAxioms.eqb_spec, !FloatAxioms.ltb_spec, abs_spec, sub_spec.
  change (Prim2SF 0) with (S754_zero false).
  intros Heq Htol. destruct (SFsub_equal _ _ Heq) as [-> | ->];
    [exact Htol |].
  unfold SFltb. now destruct (Prim2SF tolerance).
Qed.

(** X7.  Coordinates that are equal are equal within every tolerance that
    is not negative. *)
Theorem equal_within_tolerance (a b : CoordinateXYZ.t) (tolerance : double) :
  CoordinateXYZ.equals3D a b = true ->
  PrimFloat.ltb tolerance 0 = false ->
  CoordinateXYZ.equals3D_tolerance a b tolerance = true.
Proof.
  rewrite equals3D_fields. intros H Htol.
  apply andb_prop in H as [H Hz]. apply andb_prop in H as [Hx Hy].
  unfold CoordinateXYZ.equals3D_tolerance.
  now rewrite !within_tolerance.
Qed.

Lemma equal_within_tolerance_witness :
  CoordinateXYZ.equals3D_tolerance (CoordinateXYZ.mk 1 infinity 0)
    (CoordinateXYZ.mk 1 infinity (-0)) 0 = true.
Proof.
  apply equal_within_tolerance; reflexivity.
Defined.

(** ** Envelope3d: covers and equals *)

Lemma leb_antisym (x y : double) :
  PrimFloat.leb x y = true -> PrimFloat.leb y x = true ->
  PrimFloat.eqb x y = true.
Proof. intros H1 H2. double_keys. lia. Qed.

Lemma eqb_trans (x y z : double) :
  PrimFloat.eqb x y = true -> PrimFloat.eqb y z = true ->
  PrimFloat.eqb x z = true.
Proof. intros H1 H2. double_keys. lia. Qed.

Lemma eqb_refl (x : double) : isnan x = false -> PrimFloat.eqb x x = true.
Proof. intros H. rewrite eqb_key, H. cbn. apply Z.eqb_refl. Qed.

Lemma eqb_nan_l (x y : double) : isnan x = true -> PrimFloat.eqb x y = false.
Proof. intros H. now rewrite eqb_key, H. Qed.

Lemma leb_nan_l (x y : double) : isnan x = true -> PrimFloat.leb x y = false.
Proof. intros H. now rewrite leb_key, H. Qed.

Lemma leb_nan_r (x y : double) : isnan y = true -> PrimFloat.leb x y = false.
Proof. intros H. rewrite leb_key, H. now destruct (isnan x). Qed.

Lemma covers_numeric (a b : Envelope3d) :
  covers a b = true -> numeric a = true /\ numeric b = true.
Proof.
  intros H. covers_facts H. unfold numeric.
  double_keys; intuition congruence.
Qed.

(** [equals] on a non-null first operand compares the six extents. *)
Lemma equals_fields (a b : Envelope3d) :
  isNull a = false ->
  equals a b
  = PrimFloat.eqb (minx a) (minx b) && PrimFloat.eqb (maxx a) (maxx b)
    && PrimFloat.eqb (miny a) (miny b) && PrimFloat.eqb (maxy a) (maxy b)
    && PrimFloat.eqb (minz a) (minz b) && PrimFloat.eqb (maxz a) (maxz b).
Proof.
  intros Ha. unfold equals. rewrite Ha.
  now rewrite (eqb_sym (minx b)), (eqb_sym (maxx b)), (eqb_sym (miny b)),
    (eqb_sym (maxy b)), (eqb_sym (minz b)), (eqb_sym (maxz b)).
Qed.

(** X8.  [covers] is a partial order on the boxes whose extents are numbers:
    reflexive, transitive, and antisymmetric up to [equals]; it never holds
    when one of the two boxes is null. *)
Theorem covers_partial_order (a b c : Envelope3d) :
  (numeric a = true -> covers a a = true) /\
  (covers a b = true -> covers b c = true -> covers a c = true) /\
  (covers a b = true -> covers b a = true -> equals a b = true) /\
  (isNull a = true \/ isNull b = true -> covers a b = false).
Proof.
  split; [apply covers_refl |]. split; [apply covers_trans |]. split.
  - intros Hab Hba.
    destruct (covers_numeric a b Hab) as [Hna _].
    rewrite (equals_fields a b (numeric_not_null a Hna)).
    covers_facts Hab. covers_facts Hba.
    split_andb; apply leb_antisym; assumption.
  - unfold isNull, covers. intros [H | H].
    + rewrite (leb_nan_r _ (maxx a)) by exact H.
      now rewrite andb_false_r.
    + rewrite (leb_nan_l (maxx b)) by exact H.
      now rewrite andb_false_r.
Qed.

Lemma covers_partial_order_witness :
  covers (mkEnvelope3d 0 9 0 9 0 9) (mkEnvelope3d 2 3 2 3 2 3) = true.
Proof.
  apply (proj1 (proj2 (covers_partial_order (mkEnvelope3d 0 9 0 9 0 9)
                         (mkEnvelope3d 1 5 1 5 1 5)
                         (mkEnvelope3d 2 3 2 3 2 3)))); reflexivity.
Defined.

Lemma equals_sym (a b : Envelope3d) : equals a b = equals b a.
Proof.
  destruct (isNull a) eqn:Ha, (isNull b) eqn:Hb.
  - unfold equals. now rewrite Ha, Hb.
  - rewrite (equals_fields b a Hb). unfold equals. rewrite Ha, Hb.
    unfold isNull in Ha. rewrite (eqb_sym (maxx b)), (eqb_nan_l (maxx a))
      by exact Ha.
    now rewrite andb_false_r.
  - rewrite (equals_fields a b Ha). unfold equals. rewrite Hb, Ha.
    unfold isNull in Hb. rewrite (eqb_sym (maxx a)), (eqb_nan_l (maxx b))
      by exact Hb.
    now rewrite andb_false_r.
  - rewrite (equals_fields a b Ha), (equals_fields b a Hb).
    now rewrite (eqb_sym (minx b)), (eqb_sym (maxx b)), (eqb_sym (miny b)),
      (eqb_sym (maxy b)), (eqb_sym (minz b)), (eqb_sym (maxz b)).
Qed.

(** X9.  [equals] is symmetric and transitive on all envelopes, and
    reflexive on the null envelope and on the boxes whose extents are
    numbers. *)
Theorem equals_equivalence (a b c : Envelope3d) :
  equals a b = equals b a /\
  (equals a b = true -> equals b c = true -> equals a c = true) /\
  (isNull a = true \/ numeric a = true -> equals a a = true).
Proof.
  split; [apply equals_sym |]. split.
  - destruct (isNull a) eqn:Ha.
    + unfold equals at 1. rewrite Ha. intros Hb.
      unfold equals at 1. rewrite Hb. intros Hc.
      unfold equals. now rewrite Ha.
    + intros Hab Hbc.
      assert (Hb : isNull b = false).
      { destruct (isNull b) eqn:Hb; [| reflexivity].
        rewrite equals_sym in Hab. unfold equals in Hab.
        rewrite Hb in Hab. congruence. }
      rewrite (equals_fields a b Ha) in Hab.
      rewrite (equals_fields b c Hb) in Hbc.
      rewrite (equals_fields a c Ha).
      repeat (let H := fresh in apply andb_prop in Hab as [Hab H]).
      repeat (let H := fresh in apply andb_prop in Hbc as [Hbc H]).
      split_andb; eapply eqb_trans; eassumption.
  - intros [Ha | Ha].
    + unfold equals. now rewrite Ha.
    + rewrite (equals_fields a a (numeric_not_null a Ha)).
      numeric_facts Ha. split_andb; now apply eqb_refl.
Qed.

Lemma equals_equivalence_witness :
  equals (mkEnvelope3d 0 1 0 1 0 1) (mkEnvelope3d (-0) 1 0 1 (-0) 1) = true.
Proof.
  apply (proj1 (proj2 (equals_equivalence (mkEnvelope3d 0 1 0 1 0 1)
                         (mkEnvelope3d 0 1 (-0) 1 0 1)
                         (mkEnvelope3d (-0) 1 0 1 (-0) 1)))); reflexivity.
Defined.

(** ** operator< as an order *)

Lemma operator_lt_numeric (a b : Envelope3d) :
  numeric a = true -> numeric b = true ->
  operator_lt a b = lex_lt (ordinates a) (ordinates b).
Proof.
  intros Ha Hb. unfold operator_lt.
  rewrite (numeric_not_null a Ha), (numeric_not_null b Hb).
  numeric_facts Ha. numeric_facts Hb.
  unfold ordinates. cbn [lex_lt].
  rewrite !lex_step by assumption.
  now rewrite andb_false_r.
Qed.

Lemma ordinates_numeric (e : Envelope3d) :
  numeric e = true -> Forall (fun x => isnan x = false) (ordinates e).
Proof.
  intros H. numeric_facts H. unfold ordinates. repeat constructor; assumption.
Qed.

Lemma lex_lt_trans (u : list double) :
  forall v w : list double,
    Forall (fun x => isnan x = false) u ->
    Forall (fun x => isnan x = false) v ->
    Forall (fun x => isnan x = false) w ->
    lex_lt u v = true -> lex_lt v w = true -> lex_lt u w = true.
Proof.
  induction u as [| x u IH]; intros v w Hu Hv Hw; [discriminate |].
  destruct v as [| y v]; [discriminate |].
  destruct w as [| z w]; [discriminate |].
  apply Forall_cons in Hu as [Hx Hu]. apply Forall_cons in Hv as [Hy Hv].
  apply Forall_cons in Hw as [Hz Hw].
  cbn [lex_lt]. rewrite !ltb_key, !eqb_key, Hx, Hy, Hz. cbn [negb andb].
  intros H1 H2.
  destruct (Z.ltb_spec (key x) (key y)), (Z.ltb_spec (key y) (key z)),
    (Z.ltb_spec (key x) (key z)); cbn [orb] in *; try reflexivity;
    try lia;
    destruct (Z.eqb_spec (key x) (key y)), (Z.eqb_spec (key y) (key z)),
      (Z.eqb_spec (key x) (key z)); cbn [andb] in *;
    try discriminate; try lia.
  now apply (IH v w).
Qed.

Lemma lex_lt_neither (u : list double) :
  forall v : list double,
    length u = length v ->
    Forall (fun x => isnan x = false) u ->
    Forall (fun x => isnan x = false) v ->
    all_eqb u v = negb (lex_lt u v) && negb (lex_lt v u) /\
    (lex_lt u v = true -> lex_lt v u = false).
Proof.
  induction u as [| x u IH]; intros v Hlen Hu Hv;
    destruct v as [| y v]; try discriminate; [now split |].
  apply Forall_cons in Hu as [Hx Hu]. apply Forall_cons in Hv as [Hy Hv].
  injection Hlen as Hlen. destruct (IH v Hlen Hu Hv) as [IH1 IH2].
  cbn [lex_lt all_eqb]. rewrite !ltb_key, !eqb_key, Hx, Hy, IH1.
  cbn [negb andb]. rewrite (Z.eqb_sym (key y)).
  destruct (Z.ltb_spec (key x) (key y)), (Z.ltb_spec (key y) (key x)),
    (Z.eqb_spec (key x) (key y)); cbn; try lia; now split.
Qed.

Lemma equals_all_eqb (a b : Envelope3d) :
  isNull a = false -> equals a b = all_eqb (ordinates a) (ordinates b).
Proof.
  intros Ha. rewrite (equals_fields a b Ha). unfold ordinates.
  cbn [all_eqb].
  destruct (PrimFloat.eqb (minx a) (minx b)),
    (PrimFloat.eqb (maxx a) (maxx b)), (PrimFloat.eqb (miny a) (miny b)),
    (PrimFloat.eqb (maxy a) (maxy b)), (PrimFloat.eqb (minz a) (minz b)),
    (PrimFloat.eqb (maxz a) (maxz b)); reflexivity.
Qed.

(** X10.  On the envelopes the class builds, of two envelopes exactly one is
    below the other or they are equal: [equals] holds exactly when
    [operator<] holds in neither direction, and [operator<] never holds in
    both. *)
Theorem operator_lt_trichotomy (a b : Envelope3d) :
  canonical a = true -> canonical b = true ->
  equals a b = negb (operator_lt a b) && negb (operator_lt b a) /\
  (operator_lt a b = true -> operator_lt b a = false).
Proof.
  intros Ca Cb.
  destruct (isNull a) eqn:Ha, (isNull b) eqn:Hb.
  - unfold equals, operator_lt. rewrite Ha, Hb. now split.
  - rewrite equals_sym. rewrite (equals_fields b a Hb).
    unfold operator_lt. rewrite Ha, Hb. unfold isNull in Ha.
    rewrite (eqb_sym (maxx b)), (eqb_nan_l (maxx a)) by exact Ha.
    rewrite andb_false_r. now split.
  - rewrite (equals_fields a b Ha).
    unfold operator_lt. rewrite Ha, Hb. unfold isNull in Hb.
    rewrite (eqb_sym (maxx a)), (eqb_nan_l (maxx b)) by exact Hb.
    rewrite andb_false_r. now split.
  - pose proof (canonical_numeric a Ca Ha) as Na.
    pose proof (canonical_numeric b Cb Hb) as Nb.
    rewrite (equals_all_eqb a b Ha), (operator_lt_numeric a b Na Nb),
      (operator_lt_numeric b a Nb Na).
    apply lex_lt_neither;
      [reflexivity | now apply ordinates_numeric ..].
Qed.

Lemma operator_lt_trichotomy_witness :
  equals (mkEnvelope3d 0 1 0 1 0 1) (mkEnvelope3d 0 1 0 2 0 1)
  = negb (operator_lt (mkEnvelope3d 0 1 0 1 0 1) (mkEnvelope3d 0 1 0 2 0 1))
    && negb (operator_lt (mkEnvelope3d 0 1 0 2 0 1)
               (mkEnvelope3d 0 1 0 1 0 1)).
Proof.
  exact (proj1 (operator_lt_trichotomy (mkEnvelope3d 0 1 0 1 0 1)
                  (mkEnvelope3d 0 1 0 2 0 1) eq_refl eq_refl)).
Defined.

(** X11.  On the envelopes the class builds, [operator<] is transitive. *)
Theorem operator_lt_transitive (a b c : Envelope3d) :
  canonical a = true -> canonical b = true -> canonical c = true ->
  operator_lt a b = true -> operator_lt b c = true ->
  operator_lt a c = true.
Proof.
  intros Ca Cb Cc Hab Hbc.
  destruct (isNull b) eqn:Hb.
  { unfold operator_lt in Hbc, Hab. rewrite Hb in Hbc, Hab.
    destruct (isNull a), (isNull c); discriminate. }
  destruct (isNull c) eqn:Hc.
  { unfold operator_lt in Hbc. rewrite Hb, Hc in Hbc. discriminate. }
  destruct (isNull a) eqn:Ha.
  { unfold operator_lt. now rewrite Ha, Hc. }
  pose proof (canonical_numeric a Ca Ha) as Na.
  pose proof (canonical_numeric b Cb Hb) as Nb.
  pose proof (canonical_numeric c Cc Hc) as Nc.
  rewrite (operator_lt_numeric a b Na Nb) in Hab.
  rewrite (operator_lt_numeric b c Nb Nc) in Hbc.
  rewrite (operator_lt_numeric a c Na Nc).
  apply (lex_lt_trans (ordinates a) (ordinates b) (ordinates c));
    try assumption; now apply ordinates_numeric.
Qed.

Lemma operator_lt_transitive_witness :
  operator_lt Envelope3d_default (mkEnvelope3d 0 1 0 2 0 1) = true.
Proof.
  apply (operator_lt_transitive Envelope3d_default
           (mkEnvelope3d 0 1 0 1 0 1) (mkEnvelope3d 0 1 0 2 0 1));
    reflexivity.
Defined.

(** ** Envelope3d::intersection as a greatest lower bound *)

Lemma intersects_sym (a b : Envelope3d) : intersects a b = intersects b a.
Proof.
  unfold intersects.
  destruct (PrimFloat.leb (minx b) (maxx a)),
    (PrimFloat.leb (minx a) (maxx b)), (PrimFloat.leb (miny b) (maxy a)),
    (PrimFloat.leb (miny a) (maxy b)), (PrimFloat.leb (minz b) (maxz a)),
    (PrimFloat.leb (minz a) (maxz b)); reflexivity.
Qed.

Lemma well_formed_ordered (e : Envelope3d) :
  well_formed e = true -> isNull e = false ->
  PrimFloat.leb (minx e) (maxx e) = true /\
  PrimFloat.leb (miny e) (maxy e) = true /\
  PrimFloat.leb (minz e) (maxz e) = true.
Proof.
  unfold well_formed. intros H Hn. rewrite Hn in H. cbn [orb] in H.
  apply andb_prop in H as [H Hz]. apply andb_prop in H as [Hx Hy].
  now repeat split.
Qed.

(** When [intersection] succeeds, the extents of its result are the larger
    of the two mins and the smaller of the two maxes. *)
Lemma intersection_extents (a b result : Envelope3d) :
  well_formed a = true -> well_formed b = true ->
  fst (intersection a b result) = true ->
  let r := snd (intersection a b result) in
  is_max_of (minx r) (minx a) (minx b) /\
  is_min_of (maxx r) (maxx a) (maxx b) /\
  is_max_of (miny r) (miny a) (miny b) /\
  is_min_of (maxy r) (maxy a) (maxy b) /\
  is_max_of (minz r) (minz a) (minz b) /\
  is_min_of (maxz r) (maxz a) (maxz b).
Proof.
  intros Hwa Hwb. cbv zeta. unfold intersection.
  destruct (isNull a) eqn:Ha; [discriminate |].
  destruct (isNull b) eqn:Hb; [discriminate |].
  destruct (intersects a b) eqn:Hi; [| discriminate].
  cbn [orb negb fst snd]. intros _.
  destruct (well_formed_ordered a Hwa Ha) as (Hax & Hay & Haz).
  destruct (well_formed_ordered b Hwb Hb) as (Hbx & Hby & Hbz).
  unfold intersects in Hi.
  apply andb_prop in Hi as [Hi Hz2]. apply andb_prop in Hi as [Hi Hz1].
  apply andb_prop in Hi as [Hi Hy2]. apply andb_prop in Hi as [Hi Hy1].
  apply andb_prop in Hi as [Hx1 Hx2].
  pose proof (intersection_axis _ _ _ _ Hax Hbx Hx1 Hx2) as Hx.
  pose proof (intersection_axis _ _ _ _ Hay Hby Hy1 Hy2) as Hy.
  pose proof (intersection_axis _ _ _ _ Haz Hbz Hz1 Hz2) as Hz.
  cbv zeta in Hx, Hy, Hz. unfold init.
  repeat match goal with
    | |- context [if PrimFloat.ltb ?x ?y then (_, _) else _] =>
        destruct (PrimFloat.ltb x y)
    end; cbn [fst snd minx maxx miny maxy minz maxz] in *; tauto.
Qed.

Lemma max_of_lower_bound (m x y c : double) :
  is_max_of m x y ->
  PrimFloat.leb x m = true /\ PrimFloat.leb y m = true /\
  (PrimFloat.leb x c = true -> PrimFloat.leb y c = true ->
   PrimFloat.leb m c = true).
Proof.
  intros ([H | H] & Hx & Hy); repeat split; try assumption;
    intros Hxc Hyc; double_keys; lia.
Qed.

Lemma min_of_upper_bound (m x y c : double) :
  is_min_of m x y ->
  PrimFloat.leb m x = true /\ PrimFloat.leb m y = true /\
  (PrimFloat.leb c x = true -> PrimFloat.leb c y = true ->
   PrimFloat.leb c m = true).
Proof.
  intros ([H | H] & Hx & Hy); repeat split; try assumption;
    intros Hxc Hyc; double_keys; lia.
Qed.

Lemma intersection_bounds (a b result c : Envelope3d) :
  well_formed a = true -> well_formed b = true ->
  fst (intersection a b result) = true ->
  let r := snd (intersection a b result) in
  covers a r = true /\ covers b r = true /\
  (covers a c = true -> covers b c = true -> covers r c = true).
Proof.
  intros Hwa Hwb Hok.
  destruct (intersection_extents a b result Hwa Hwb Hok)
    as (Hnx & Hxx & Hny & Hxy & Hnz & Hxz).
  cbv zeta in *.
  set (r := snd (intersection a b result)) in *.
  destruct (max_of_lower_bound _ _ _ (minx c) Hnx) as (X1 & X2 & X3).
  destruct (min_of_upper_bound _ _ _ (maxx c) Hxx) as (X4 & X5 & X6).
  destruct (max_of_lower_bound _ _ _ (miny c) Hny) as (Y1 & Y2 & Y3).
  destruct (min_of_upper_bound _ _ _ (maxy c) Hxy) as (Y4 & Y5 & Y6).
  destruct (max_of_lower_bound _ _ _ (minz c) Hnz) as (Z1 & Z2 & Z3).
  destruct (min_of_upper_bound _ _ _ (maxz c) Hxz) as (Z4 & Z5 & Z6).
  repeat split.
  - unfold covers. split_andb; assumption.
  - unfold covers. split_andb; assumption.
  - intros Hac Hbc. covers_facts Hac. covers_facts Hbc.
    unfold covers. split_andb; auto.
Qed.

(** X12.  When [intersection] succeeds on well-formed envelopes, its result
    is covered by both operands, and covers every box that both operands
    cover: it is the largest box inside both. *)
Theorem intersection_greatest_lower_bound (a b result c : Envelope3d) :
  well_formed a = true -> well_formed b = true ->
  fst (intersection a b result) = true ->
  let r := snd (intersection a b result) in
  covers a r = true /\ covers b r = true /\
  (covers a c = true -> covers b c = true -> covers r c = true).
Proof. apply intersection_bounds. Qed.

Lemma intersection_greatest_lower_bound_witness :
  covers (mkEnvelope3d 0 2 0 2 0 2)
    (snd (intersection (mkEnvelope3d 0 2 0 2 0 2) (mkEnvelope3d 1 3 1 3 1 3)
            Envelope3d_default)) = true.
Proof.
  exact (proj1 (intersection_greatest_lower_bound (mkEnvelope3d 0 2 0 2 0 2)
                  (mkEnvelope3d 1 3 1 3 1 3) Envelope3d_default
                  Envelope3d_default eq_refl eq_refl eq_refl)).
Defined.

(** X13.  The intersection of a well-formed envelope with a well-formed
    box that it covers is that box. *)
Theorem intersection_of_covered (a b result : Envelope3d) :
  well_formed a = true -> well_formed b = true ->
  covers a b = true ->
  fst (intersection a b result) = true /\
  same_extents (snd (intersection a b result)) b = true.
Proof.
  intros Hwa Hwb Hab.
  destruct (covers_numeric a b Hab) as [Na Nb].
  pose proof (numeric_not_null a Na) as Ha.
  pose proof (numeric_not_null b Nb) as Hb.
  destruct (well_formed_ordered b Hwb Hb) as (Hbx & Hby & Hbz).
  assert (Hi : intersects a b = true).
  { pose proof Hab as Hc. covers_facts Hc. unfold intersects.
    split_andb; eapply leb_trans; eassumption. }
  assert (Hok : fst (intersection a b result) = true).
  { unfold intersection. now rewrite Ha, Hb, Hi. }
  split; [exact Hok |].
  destruct (intersection_bounds a b result b Hwa Hwb Hok)
    as (_ & Hbr & Hglb).
  cbv zeta in Hbr, Hglb.
  specialize (Hglb Hab (covers_refl b Nb)).
  set (r := snd (intersection a b result)) in *.
  covers_facts Hbr. covers_facts Hglb.
  unfold same_extents. split_andb; apply leb_antisym; assumption.
Qed.

Lemma intersection_of_covered_witness :
  same_extents
    (snd (intersection (mkEnvelope3d 0 9 0 9 0 9) (mkEnvelope3d 2 3 2 3 2 3)
            Envelope3d_default))
    (mkEnvelope3d 2 3 2 3 2 3) = true.
Proof.
  exact (proj2 (intersection_of_covered (mkEnvelope3d 0 9 0 9 0 9)
                  (mkEnvelope3d 2 3 2 3 2 3) Envelope3d_default
                  eq_refl eq_refl eq_refl)).
Defined.

(** X14.  [intersection] is commutative: it succeeds on [a], [b] exactly
    when it does on [b], [a], and then the two results have the same
    extents. *)
Theorem intersection_commutative (a b r1 r2 : Envelope3d) :
  well_formed a = true -> well_formed b = true ->
  fst (intersection a b r1) = fst (intersection b a r2) /\
  (fst (intersection a b r1) = true ->
   same_extents (snd (intersection a b r1)) (snd (intersection b a r2))
   = true).
Proof.
  intros Hwa Hwb.
  assert (Hfst : fst (intersection a b r1) = fst (intersection b a r2)).
  { unfold intersection. rewrite (intersects_sym b a).
    now destruct (isNull a), (isNull b), (intersects a b). }
  split; [exact Hfst |]. intros Hok.
  pose proof Hok as Hok'. rewrite Hfst in Hok'.
  destruct (intersection_bounds a b r1
              (snd (intersection b a r2)) Hwa Hwb Hok) as (A1 & A2 & A3).
  destruct (intersection_bounds b a r2
              (snd (intersection a b r1)) Hwb Hwa Hok') as (B1 & B2 & B3).
  cbv zeta in *.
  specialize (A3 B2 B1). specialize (B3 A2 A1).
  covers_facts A3. covers_facts B3.
  unfold same_extents. split_andb; apply leb_antisym; assumption.
Qed.

Lemma intersection_commutative_witness :
  same_extents
    (snd (intersection (mkEnvelope3d 0 2 0 2 0 2) (mkEnvelope3d 1 3 1 3 1 3)
            Envelope3d_default))
    (snd (intersection (mkEnvelope3d 1 3 1 3 1 3) (mkEnvelope3d 0 2 0 2 0 2)
            Envelope3d_default)) = true.
Proof.
  exact (proj2 (intersection_commutative (mkEnvelope3d 0 2 0 2 0 2)
                  (mkEnvelope3d 1 3 1 3 1 3) Envelope3d_default
                  Envelope3d_default eq_refl eq_refl) eq_refl).
Defined.

(** ** Envelope3d against coordinates *)

(** The smaller and the larger of two doubles that are not NaN do not depend
    on the order in which the two are given, as far as comparisons go. *)
Lemma pick_min_key (u v : double) :
  isnan u = false -> isnan v = false ->
  isnan (if PrimFloat.ltb u v then u else v) = false /\
  key (if PrimFloat.ltb u v then u else v) = Z.min (key u) (key v).
Proof.
  intros Hu Hv. rewrite ltb_key, Hu, Hv. cbn [negb andb].
  destruct (Z.ltb_spec (key u) (key v)); split; try assumption; lia.
Qed.

Lemma pick_max_key (u v : double) :
  isnan u = false -> isnan v = false ->
  isnan (if PrimFloat.ltb v u then u else v) = false /\
  key (if PrimFloat.ltb v u then u else v) = Z.max (key u) (key v).
Proof.
  intros Hu Hv. rewrite ltb_key, Hu, Hv. cbn [negb andb].
  destruct (Z.ltb_spec (key v) (key u)); split; try assumption; lia.
Qed.

Lemma intersects_segment_keys (this : Envelope3d) (a b : CoordinateXYZ.t) :
  CoordinateXYZ.numeric a = true -> CoordinateXYZ.numeric b = true ->
  numeric this = true ->
  intersects_segment this a b
  = negb
      ((key (maxx this)
        <? Z.min (key (CoordinateXYZ.x a)) (key (CoordinateXYZ.x b)))
       || (Z.max (key (CoordinateXYZ.x a)) (key (CoordinateXYZ.x b))
           <? key (minx this))
       || (key (maxy this)
           <? Z.min (key (CoordinateXYZ.y a)) (key (CoordinateXYZ.y b)))
       || (Z.max (key (CoordinateXYZ.y a)) (key (CoordinateXYZ.y b))
           <? key (miny this))
       || (key (maxz this)
           <? Z.min (key (CoordinateXYZ.z a)) (key (CoordinateXYZ.z b)))
       || (Z.max (key (CoordinateXYZ.z a)) (key (CoordinateXYZ.z b))
           <? key (minz this))).
Proof.
  intros Ha Hb Ht. coordinate_numeric Ha. coordinate_numeric Hb.
  numeric_facts Ht. unfold intersects_segment. cbv zeta.
  destruct (pick_min_key (CoordinateXYZ.x a) (CoordinateXYZ.x b))
    as [N1 K1]; try assumption.
  destruct (pick_max_key (CoordinateXYZ.x a) (CoordinateXYZ.x b))
    as [N2 K2]; try assumption.
  destruct (pick_min_key (CoordinateXYZ.y a) (CoordinateXYZ.y b))
    as [N3 K3]; try assumption.
  destruct (pick_max_key (CoordinateXYZ.y a) (CoordinateXYZ.y b))
    as [N4 K4]; try assumption.
  destruct (pick_min_key (CoordinateXYZ.z a) (CoordinateXYZ.z b))
    as [N5 K5]; try assumption.
  destruct (pick_max_key (CoordinateXYZ.z a) (CoordinateXYZ.z b))
    as [N6 K6]; try assumption.
  repeat match goal with
    | H : isnan ?t = false |- _ =>
        lazymatch t with
        | (if _ then _ else _) =>
            let m := fresh "m" in set (m := t) in *; clearbody m
        end
    end.
  rewrite leb_key, !ltb_key.
  repeat match goal with
    | H : isnan _ = false |- _ => rewrite H; clear H
    end.
  rewrite K1, K2, K3, K4, K5, K6. cbn [negb andb].
  rewrite Z.leb_antisym, negb_involutive.
  repeat match goal with
    | |- context [if ?c then _ else _] => destruct c; cbn [orb negb]
    end; reflexivity.
Qed.

(** X15.  [intersects(a, b)] is false on a null envelope, whatever the two
    coordinates; on an envelope whose extents are numbers it does not depend
    on the order of the two coordinates. *)
Theorem intersects_segment_null_and_symmetric (this : Envelope3d)
    (a b : CoordinateXYZ.t) :
  (isNull this = true -> intersects_segment this a b = false) /\
  (numeric this = true -> CoordinateXYZ.numeric a = true ->
   CoordinateXYZ.numeric b = true ->
   intersects_segment this a b = intersects_segment this b a).
Proof.
  split.
  - unfold isNull, intersects_segment. intros Hn. cbv zeta.
    now rewrite (leb_nan_r _ (maxx this) Hn).
  - intros Ht Ha Hb.
    rewrite (intersects_segment_keys this a b Ha Hb Ht),
      (intersects_segment_keys this b a Hb Ha Ht).
    now rewrite (Z.min_comm (key (CoordinateXYZ.x a))),
      (Z.max_comm (key (CoordinateXYZ.x a))),
      (Z.min_comm (key (CoordinateXYZ.y a))),
      (Z.max_comm (key (CoordinateXYZ.y a))),
      (Z.min_comm (key (CoordinateXYZ.z a))),
      (Z.max_comm (key (CoordinateXYZ.z a))).
Qed.

Lemma intersects_segment_null_and_symmetric_witness :
  intersects_segment (mkEnvelope3d 0 2 0 2 0 2) (CoordinateXYZ.mk 1 1 1)
    (CoordinateXYZ.mk 5 5 5)
  = intersects_segment (mkEnvelope3d 0 2 0 2 0 2) (CoordinateXYZ.mk 5 5 5)
      (CoordinateXYZ.mk 1 1 1).
Proof.
  apply (proj2 (intersects_segment_null_and_symmetric
                  (mkEnvelope3d 0 2 0 2 0 2) (CoordinateXYZ.mk 1 1 1)
                  (CoordinateXYZ.mk 5 5 5))); reflexivity.
Defined.

Lemma intersects_point_keys (p1 p2 q : CoordinateXYZ.t) :
  CoordinateXYZ.numeric p1 = true -> CoordinateXYZ.numeric p2 = true ->
  CoordinateXYZ.numeric q = true ->
  intersects_point p1 p2 q
  = negb
      ((key (CoordinateXYZ.x q)
        <? Z.min (key (CoordinateXYZ.x p1)) (key (CoordinateXYZ.x p2)))
       || (Z.max (key (CoordinateXYZ.x p1)) (key (CoordinateXYZ.x p2))
           <? key (CoordinateXYZ.x q))
       || (key (CoordinateXYZ.y q)
           <? Z.min (key (CoordinateXYZ.y p1)) (key (CoordinateXYZ.y p2)))
       || (Z.max (key (CoordinateXYZ.y p1)) (key (CoordinateXYZ.y p2))
           <? key (CoordinateXYZ.y q))
       || (key (CoordinateXYZ.z q)
           <? Z.min (key (CoordinateXYZ.z p1)) (key (CoordinateXYZ.z p2)))
       || (Z.max (key (CoordinateXYZ.z p1)) (key (CoordinateXYZ.z p2))
           <? key (CoordinateXYZ.z q))).
Proof.
  intros H1 H2 Hq. coordinate_numeric H1. coordinate_numeric H2.
  coordinate_numeric Hq. unfold intersects_point. cbv zeta beta.
  destruct (pick_min_key (CoordinateXYZ.x p1) (CoordinateXYZ.x p2))
    as [N1 K1]; try assumption.
  destruct (pick_max_key (CoordinateXYZ.x p1) (CoordinateXYZ.x p2))
    as [N2 K2]; try assumption.
  destruct (pick_min_key (CoordinateXYZ.y p1) (CoordinateXYZ.y p2))
    as [N3 K3]; try assumption.
  destruct (pick_max_key (CoordinateXYZ.y p1) (CoordinateXYZ.y p2))
    as [N4 K4]; try assumption.
  destruct (pick_min_key (CoordinateXYZ.z p1) (CoordinateXYZ.z p2))
    as [N5 K5]; try assumption.
  destruct (pick_max_key (CoordinateXYZ.z p1) (CoordinateXYZ.z p2))
    as [N6 K6]; try assumption.
  repeat match goal with
    | H : isnan ?t = false |- _ =>
        lazymatch t with
        | (if _ then _ else _) =>
            let m := fresh "m" in set (m := t) in *; clearbody m
        end
    end.
  rewrite !leb_key.
  repeat match goal with
    | H : isnan _ = false |- _ => rewrite H; clear H
    end.
  rewrite K1, K2, K3, K4, K5, K6. cbn [negb andb].
  rewrite !Z.leb_antisym.
  repeat match goal with
    | |- context [?u <? ?v] => destruct (u <? v); cbn [orb andb negb]
    end; reflexivity.
Qed.

(** X16.  On coordinates without NaN, the static [intersects(p1, p2, q)]
    does not depend on the order of [p1] and [p2], and it is the member
    [intersects(p1, p2)] of the envelope that is the point [q]. *)
Theorem intersects_point_as_segment (p1 p2 q : CoordinateXYZ.t) :
  CoordinateXYZ.numeric p1 = true -> CoordinateXYZ.numeric p2 = true ->
  CoordinateXYZ.numeric q = true ->
  intersects_point p1 p2 q = intersects_point p2 p1 q /\
  intersects_point p1 p2 q = intersects_segment (point_box q) p1 p2.
Proof.
  intros H1 H2 Hq. split.
  - rewrite (intersects_point_keys p1 p2 q H1 H2 Hq),
      (intersects_point_keys p2 p1 q H2 H1 Hq).
    now rewrite (Z.min_comm (key (CoordinateXYZ.x p1))),
      (Z.max_comm (key (CoordinateXYZ.x p1))),
      (Z.min_comm (key (CoordinateXYZ.y p1))),
      (Z.max_comm (key (CoordinateXYZ.y p1))),
      (Z.min_comm (key (CoordinateXYZ.z p1))),
      (Z.max_comm (key (CoordinateXYZ.z p1))).
  - rewrite (intersects_point_keys p1 p2 q H1 H2 Hq).
    rewrite (intersects_segment_keys (point_box q) p1 p2 H1 H2);
      [reflexivity |].
    coordinate_numeric Hq. unfold numeric, point_box.
    cbn [minx maxx miny maxy minz maxz].
    repeat match goal with
      | H : isnan _ = false |- _ => rewrite H; clear H
      end.
    reflexivity.
Qed.

Lemma intersects_point_as_segment_witness :
  intersects_point (CoordinateXYZ.mk 0 0 0) (CoordinateXYZ.mk 2 2 2)
    (CoordinateXYZ.mk 1 2 0)
  = intersects_segment (point_box (CoordinateXYZ.mk 1 2 0))
      (CoordinateXYZ.mk 0 0 0) (CoordinateXYZ.mk 2 2 2).
Proof.
  apply (proj2 (intersects_point_as_segment (CoordinateXYZ.mk 0 0 0)
                  (CoordinateXYZ.mk 2 2 2) (CoordinateXYZ.mk 1 2 0)
                  eq_refl eq_refl eq_refl)).
Defined.

(** ** Envelope3d::expandBy on particular arguments *)

Lemma isnan_true_sf (x : double) :
  isnan x = true -> Prim2SF x = S754_nan.
Proof. rewrite isnan_sf. now destruct (Prim2SF x). Qed.

Lemma add_nan_l (x y : double) :
  isnan x = true -> isnan (PrimFloat.add x y) = true.
Proof.
  intros H. rewrite isnan_sf, add_spec, (isnan_true_sf x H). reflexivity.
Qed.

(** X17.  [expandBy] keeps a null envelope null, whatever the deltas. *)
Theorem expandBy_keeps_null (e : Envelope3d) (dx dy dz : double) :
  isNull e = true -> isNull (expandBy e dx dy dz) = true.
Proof.
  intros Hn. unfold expandBy. cbv zeta.
  match goal with
  | |- context [if ?c then _ else _] => destruct c
  end; [reflexivity |].
  unfold isNull, expandBy_extents in *. cbn [maxx]. now apply add_nan_l.
Qed.

Lemma expandBy_keeps_null_witness :
  isNull (expandBy Envelope3d_default 1 2 3) = true.
Proof. apply expandBy_keeps_null. reflexivity. Defined.

(** Adding or subtracting zero does not change a double, as far as
    comparisons go. *)
Lemma plus_minus_zero (x : double) :
  isnan x = false ->
  (isnan (PrimFloat.add x 0) = false /\ key (PrimFloat.add x 0) = key x) /\
  (isnan (PrimFloat.sub x 0) = false /\ key (PrimFloat.sub x 0) = key x).
Proof.
  rewrite !isnan_sf. unfold key. rewrite add_spec, sub_spec.
  change (Prim2SF 0) with (S754_zero false).
  destruct (Prim2SF x) as [s | s | | s m e]; try discriminate; intros _;
    unfold SF64add, SF64sub; cbn; repeat split; now destruct s.
Qed.

(** X18.  Expanding a non-null well-formed envelope by zero on every axis
    leaves its six extents as they are. *)
Theorem expandBy_zero (e : Envelope3d) :
  well_formed e = true -> isNull e = false ->
  same_extents (expandBy e 0 0 0) e = true.
Proof.
  intros Hw Hn. pose proof (well_formed_numeric e Hw Hn) as Hnum.
  destruct (well_formed_ordered e Hw Hn) as (Lx & Ly & Lz).
  numeric_facts Hnum.
  destruct (plus_minus_zero (minx e)) as [_ [N1 K1]]; [assumption |].
  destruct (plus_minus_zero (maxx e)) as [[N2 K2] _]; [assumption |].
  destruct (plus_minus_zero (miny e)) as [_ [N3 K3]]; [assumption |].
  destruct (plus_minus_zero (maxy e)) as [[N4 K4] _]; [assumption |].
  destruct (plus_minus_zero (minz e)) as [_ [N5 K5]]; [assumption |].
  destruct (plus_minus_zero (maxz e)) as [[N6 K6] _]; [assumption |].
  rewrite leb_key in Lx, Ly, Lz.
  unfold expandBy, expandBy_extents, same_extents. cbv zeta.
  cbn [minx maxx miny maxy minz maxz].
  rewrite !ltb_key, N1, N2, N3, N4, N5, N6, K1, K2, K3, K4, K5, K6.
  repeat match goal with
    | H : isnan _ = false |- _ => rewrite H in *
    end.
  cbn [negb andb] in *.
  apply Z.leb_le in Lx, Ly, Lz.
  replace (key (maxx e) <? key (minx e)) with false
    by (symmetry; apply Z.ltb_ge; lia).
  replace (key (maxy e) <? key (miny e)) with false
    by (symmetry; apply Z.ltb_ge; lia).
  replace (key (maxz e) <? key (minz e)) with false
    by (symmetry; apply Z.ltb_ge; lia).
  cbn [orb minx maxx miny maxy minz maxz].
  rewrite !eqb_key, N1, N2, N3, N4, N5, N6, K1, K2, K3, K4, K5, K6.
  repeat match goal with
    | H : isnan _ = false |- _ => rewrite H
    end.
  cbn [negb andb]. now rewrite !Z.eqb_refl.
Qed.

Lemma expandBy_zero_witness :
  same_extents (expandBy (mkEnvelope3d (-0) 2 0 2 (-1) infinity) 0 0 0)
    (mkEnvelope3d (-0) 2 0 2 (-1) infinity) = true.
Proof. apply expandBy_zero; reflexivity. Defined.

(** ** Hash codes and equality *)

(** X19.  When [std::hash<double>] gives equal doubles equal hashes, as the
    C++ standard requires, envelopes that are [equals] to a non-null
    envelope have its [hashCode]. *)
Theorem hashCode_respects_equals (hash : double -> Z) (a b : Envelope3d) :
  (forall x y : double, PrimFloat.eqb x y = true -> hash x = hash y) ->
  isNull a = false -> equals a b = true ->
  hashCode hash a = hashCode hash b.
Proof.
  intros Hh Ha He. rewrite (equals_fields a b Ha) in He.
  repeat (let H := fresh in apply andb_prop in He as [He H]).
  unfold hashCode. cbv zeta.
  rewrite (Hh (minx a) (minx b)), (Hh (maxx a) (maxx b)),
    (Hh (miny a) (miny b)), (Hh (maxy a) (maxy b)),
    (Hh (minz a) (minz b)), (Hh (maxz a) (maxz b)) by assumption.
  reflexivity.
Qed.

Lemma hashCode_respects_equals_witness :
  hashCode (fun _ => 7) (mkEnvelope3d 0 1 0 1 0 1)
  = hashCode (fun _ => 7) (mkEnvelope3d (-0) 1 0 1 (-0) 1).
Proof.
  apply hashCode_respects_equals; [intros; reflexivity | reflexivity ..].
Defined.

Lemma lxor_cancel_l (a b c : Z) : Z.lxor a b = Z.lxor a c -> b = c.
Proof.
  intros H.
  assert (E : Z.lxor a (Z.lxor a b) = Z.lxor a (Z.lxor a c)) by now rewrite H.
  now rewrite <- !Z.lxor_assoc, Z.lxor_nilpotent, !Z.lxor_0_l in E.
Qed.

(** X20.  Under the same requirement on [std::hash<double>], coordinates
    that are equal have the same [HashCode].  And the z ordinate is hashed,
    although the comment in the source has it ignored: whatever the hash,
    coordinates with the same x and the same y have the same [HashCode]
    exactly when the hashes of their z ordinates, shifted by two bits in a
    [size_t], are the same. *)
Theorem HashCode_respects_equals3D (hash : double -> Z)
    (a b : CoordinateXYZ.t) :
  ((forall x y : double, PrimFloat.eqb x y = true -> hash x = hash y) ->
   CoordinateXYZ.operator_eq a b = true ->
   CoordinateXYZ.HashCode hash a = CoordinateXYZ.HashCode hash b) /\
  (CoordinateXYZ.x a = CoordinateXYZ.x b ->
   CoordinateXYZ.y a = CoordinateXYZ.y b ->
   (CoordinateXYZ.HashCode hash a = CoordinateXYZ.HashCode hash b <->
    Z.shiftl (hash (CoordinateXYZ.z a)) 2 mod 2 ^ 64
    = Z.shiftl (hash (CoordinateXYZ.z b)) 2 mod 2 ^ 64)).
Proof.
  split.
  - intros Hh He. unfold CoordinateXYZ.operator_eq in He.
    rewrite equals3D_fields in He.
    apply andb_prop in He as [He Hz]. apply andb_prop in He as [Hx Hy].
    unfold CoordinateXYZ.HashCode. cbv zeta.
    now rewrite (Hh _ _ Hx), (Hh _ _ Hy), (Hh _ _ Hz).
  - intros Hx Hy. unfold CoordinateXYZ.HashCode. cbv zeta.
    rewrite Hx, Hy. split; intros H.
    + exact (lxor_cancel_l _ _ _ H).
    + now rewrite H.
Qed.

(** The theorem with a hash that is not constant, the key of a double: 0
    and -0, which are equal, have the same key; and two coordinates that
    differ in z only have different hash codes. *)
Lemma HashCode_respects_equals3D_witness :
  CoordinateXYZ.HashCode (fun d => key d mod 2 ^ 64) (CoordinateXYZ.mk 0 1 2)
  = CoordinateXYZ.HashCode (fun d => key d mod 2 ^ 64)
      (CoordinateXYZ.mk (-0) 1 2) /\
  CoordinateXYZ.HashCode (fun d => key d mod 2 ^ 64) (CoordinateXYZ.mk 0 1 2)
  <> CoordinateXYZ.HashCode (fun d => key d mod 2 ^ 64)
       (CoordinateXYZ.mk 0 1 3).
Proof.
  assert (Hh : forall x y : double,
             PrimFloat.eqb x y = true -> key x mod 2 ^ 64 = key y mod 2 ^ 64).
  { intros x y H. rewrite eqb_key in H. apply andb_prop in H as [_ H].
    apply Z.eqb_eq in H. now rewrite H. }
  split.
  - exact (proj1 (HashCode_respects_equals3D (fun d => key d mod 2 ^ 64)
                    (CoordinateXYZ.mk 0 1 2) (CoordinateXYZ.mk (-0) 1 2))
             Hh eq_refl).
  - intros H.
    apply (proj2 (HashCode_respects_equals3D (fun d => key d mod 2 ^ 64)
                    (CoordinateXYZ.mk 0 1 2) (CoordinateXYZ.mk 0 1 3))
             eq_refl eq_refl) in H.
    vm_compute in H. discriminate H.
Defined.

(** ** Envelope3d::split on any string *)

Lemma all_delimiters_hit (delimiters ds : cstring) :
  forallb (is_one_of delimiters) ds = true ->
  forallb (fun a => negb (negb (is_one_of delimiters a))) ds = true.
Proof.
  induction ds as [| d ds IH]; [reflexivity |]. cbn [forallb].
  intros H. apply andb_prop in H as [Hd H]. now rewrite Hd, IH.
Qed.

(** The loop of [split], started at the beginning of a token, on a string
    cut into tokens, runs of delimiters and final delimiters. *)
Lemma split_loop_runs (delimiters : cstring)
    (rest : list (cstring * cstring)) :
  forall (str pre t tail : cstring) (acc : list cstring) (fuel : nat),
    str = pre ++ t ++ runs rest ++ tail ->
    free_of delimiters t = true ->
    Forall (fun x => fst x <> [] /\
                     forallb (is_one_of delimiters) (fst x) = true /\
                     snd x <> [] /\ free_of delimiters (snd x) = true) rest ->
    forallb (is_one_of delimiters) tail = true ->
    size str < npos ->
    (length rest + 2 <= fuel)%nat ->
    split_loop fuel str delimiters (size pre)
      (find_first_of str delimiters (size pre)) acc
    = Some (acc ++ t :: map snd rest).
Proof.
  induction rest as [| [ds t'] rest IH];
    intros str pre t tail acc fuel Hstr Ht Hrest Htail Hsize Hfuel.
  - cbn [runs map concat app] in Hstr.
    destruct fuel as [| [| fuel]]; [cbn in Hfuel; lia .. |].
    pose proof (size_nonneg pre). pose proof (size_nonneg t).
    pose proof (size_nonneg tail).
    assert (Hsz : size str = size pre + size t + size tail)
      by (rewrite Hstr, !size_app; lia).
    assert (Hfn : find_first_not_of str delimiters npos = npos)
      by (apply find_if_from_past; lia).
    assert (Hff : find_first_of str delimiters npos = npos)
      by (apply find_if_from_past; lia).
    destruct tail as [| d tail'].
    + rewrite app_nil_r in Hstr.
      assert (Hpos : find_first_of str delimiters (size pre) = npos).
      { unfold find_first_of. rewrite Hstr, find_if_from_skip by lia.
        now apply find_if_from_miss. }
      rewrite Hpos. cbn [split_loop]. rewrite Z.eqb_refl.
      replace (size pre =? npos) with false
        by (symmetry; apply Z.eqb_neq; change (size []) with 0 in *; lia).
      cbn [negb orb].
      assert (Hsub : substr str (size pre) (size_t_sub npos (size pre))
                     = Some t).
      { rewrite Hstr. rewrite <- (app_nil_r t) at 1. apply substr_app.
        unfold size_t_sub.
        rewrite Z.mod_small by (unfold npos, size_t_max in *; lia).
        change (size []) with 0 in *. lia. }
      rewrite Hsub. cbn [mbind option_bind].
      rewrite Hfn, Hff, Z.eqb_refl. reflexivity.
    + cbn [forallb] in Htail. apply andb_prop in Htail as [Hd Htail].
      rewrite size_cons in *. pose proof (size_nonneg tail').
      assert (Hpos : find_first_of str delimiters (size pre)
                     = size pre + size t).
      { unfold find_first_of. rewrite Hstr, find_if_from_skip by lia.
        rewrite find_if_from_hit; [lia | exact Ht | exact Hd | lia]. }
      rewrite Hpos. cbn [split_loop].
      replace (size pre + size t =? npos) with false
        by (symmetry; apply Z.eqb_neq; lia).
      cbn [negb orb].
      assert (Hsub : substr str (size pre)
                       (size_t_sub (size pre + size t) (size pre)) = Some t).
      { rewrite Hstr. apply substr_app. unfold size_t_sub.
        rewrite Z.mod_small by (unfold npos, size_t_max in *; lia).
        rewrite size_cons. lia. }
      rewrite Hsub. cbn [mbind option_bind].
      assert (Hlast : find_first_not_of str delimiters (size pre + size t)
                      = npos).
      { unfold find_first_not_of. rewrite Hstr, app_assoc.
        rewrite find_if_from_skip by (rewrite size_app; lia).
        apply find_if_from_miss. cbn [forallb]. rewrite Hd. cbn [negb andb].
        now apply all_delimiters_hit. }
      rewrite Hlast, Hff, Z.eqb_refl. reflexivity.
  - apply Forall_cons in Hrest as [(Hne & Hds & Hne' & Hfree) Hrest'].
    cbn [fst snd] in Hne, Hds, Hne', Hfree.
    cbn [runs map concat fst snd] in Hstr. fold (runs rest) in Hstr.
    destruct ds as [| d ds]; [congruence |].
    destruct t' as [| c t'']; [congruence |].
    cbn [forallb] in Hds. apply andb_prop in Hds as [Hd Hds].
    pose proof (size_nonneg pre). pose proof (size_nonneg t).
    pose proof (size_nonneg ds). pose proof (size_nonneg t'').
    pose proof (size_nonneg (runs rest)). pose proof (size_nonneg tail).
    assert (Hsz : size str
                  = size pre + size t + 1 + size ds + 1 + size t''
                    + size (runs rest) + size tail).
    { rewrite Hstr. rewrite <- !app_assoc. cbn [app].
      repeat (rewrite size_app || rewrite size_cons). lia. }
    assert (Hpos : find_first_of str delimiters (size pre)
                   = size pre + size t).
    { unfold find_first_of. rewrite Hstr, find_if_from_skip by lia.
      rewrite <- !app_assoc. cbn [app].
      rewrite find_if_from_hit; [lia | exact Ht | exact Hd | lia]. }
    rewrite Hpos.
    destruct fuel as [| fuel]; [cbn in Hfuel; lia |].
    cbn [split_loop].
    replace (size pre + size t =? npos) with false
      by (symmetry; apply Z.eqb_neq; lia).
    cbn [negb orb].
    assert (Hsub : substr str (size pre)
                     (size_t_sub (size pre + size t) (size pre)) = Some t).
    { rewrite Hstr. apply substr_app. unfold size_t_sub.
      rewrite Z.mod_small by (unfold npos, size_t_max in *; lia).
      repeat match goal with
        | |- context [size ?p] =>
            lazymatch goal with
            | H : 0 <= size p |- _ => fail
            | _ => pose proof (size_nonneg p)
            end
        end.
      lia. }
    rewrite Hsub. cbn [mbind option_bind].
    cbn [free_of forallb] in Hfree. apply andb_prop in Hfree as [Hc Hfree].
    assert (Hlast : find_first_not_of str delimiters (size pre + size t)
                    = size (pre ++ t ++ d :: ds)).
    { assert (Hstr2 : str = (pre ++ t) ++ (d :: ds)
                             ++ c :: (t'' ++ runs rest ++ tail))
        by (rewrite Hstr, <- !app_assoc; reflexivity).
      unfold find_first_not_of. rewrite Hstr2.
      rewrite find_if_from_skip by (rewrite size_app; lia).
      rewrite (find_if_from_hit _ (d :: ds) c).
      - rewrite !size_app, !size_cons. lia.
      - cbn [forallb]. rewrite Hd. cbn [negb andb].
        now apply all_delimiters_hit.
      - exact Hc.
      - rewrite size_app. lia. }
    rewrite Hlast.
    rewrite (IH str (pre ++ t ++ d :: ds) (c :: t'') tail (acc ++ [t]) fuel).
    + rewrite <- app_assoc. reflexivity.
    + rewrite Hstr, <- !app_assoc. reflexivity.
    + cbn [free_of forallb]. now rewrite Hc.
    + exact Hrest'.
    + exact Htail.
    + exact Hsize.
    + cbn [length] in Hfuel. lia.
Qed.

Lemma decompose_spec (delimiters str : cstring) :
  let '(t0, rest, tail) := decompose delimiters str in
  str = t0 ++ runs rest ++ tail /\
  free_of delimiters t0 = true /\
  Forall (run_and_token delimiters) rest /\
  forallb (is_one_of delimiters) tail = true /\
  (length rest <= length str)%nat.
Proof.
  induction str as [| a s IH];
    [cbn; split; [reflexivity | split; [reflexivity | split;
       [constructor | split; [reflexivity | lia]]]] |].
  cbn [decompose].
  destruct (decompose delimiters s) as [[t0 rest] tail].
  destruct IH as (Hs & Ht0 & Hrest & Htail & Hlen).
  destruct (is_one_of delimiters a) eqn:Ha.
  - destruct t0 as [| c t0'].
    + destruct rest as [| [ds t] r].
      * cbn [runs map concat app] in *. subst s.
        split; [reflexivity | split; [reflexivity | split;
          [constructor | split]]].
        -- cbn [forallb]. now rewrite Ha, Htail.
        -- cbn [length]. lia.
      * apply Forall_cons in Hrest as [(H1 & H2 & H3 & H4) Hr].
        cbn [fst snd] in *.
        split; [| split; [reflexivity | split; [| split; [exact Htail |]]]].
        -- rewrite Hs. unfold runs. cbn [map concat fst snd app].
           now rewrite <- !app_assoc.
        -- apply Forall_cons. split; [| exact Hr].
           unfold run_and_token. cbn [fst snd forallb].
           rewrite Ha, H2.
           split; [discriminate | split; [reflexivity | split; assumption]].
        -- cbn [length] in *. lia.
    + split; [| split; [reflexivity | split; [| split; [exact Htail |]]]].
      * rewrite Hs. unfold runs. cbn [map concat fst snd app].
        now rewrite <- !app_assoc.
      * apply Forall_cons. split; [| exact Hrest].
        unfold run_and_token. cbn [fst snd forallb]. rewrite Ha.
        split; [discriminate | split; [reflexivity | split;
          [discriminate | exact Ht0]]].
      * cbn [length] in *. lia.
  - split; [| split; [| split; [exact Hrest | split; [exact Htail |]]]].
    + rewrite Hs. reflexivity.
    + unfold free_of in *. cbn [forallb]. now rewrite Ha, Ht0.
    + cbn [length]. lia.
Qed.

Lemma filter_free (delimiters t : cstring) :
  free_of delimiters t = true ->
  List.filter (fun a => negb (is_one_of delimiters a)) t = t.
Proof.
  unfold free_of. induction t as [| a t IH]; [reflexivity |].
  cbn [forallb List.filter]. intros H. apply andb_prop in H as [Ha H].
  now rewrite Ha, IH.
Qed.

Lemma filter_delimiters (delimiters l : cstring) :
  forallb (is_one_of delimiters) l = true ->
  List.filter (fun a => negb (is_one_of delimiters a)) l = [].
Proof.
  induction l as [| a l IH]; [reflexivity |].
  cbn [forallb List.filter]. intros H. apply andb_prop in H as [Ha H].
  now rewrite Ha, IH.
Qed.

Lemma filter_runs (delimiters : cstring) (rest : list (cstring * cstring)) :
  Forall (run_and_token delimiters) rest ->
  List.filter (fun a => negb (is_one_of delimiters a)) (runs rest)
  = concat (map snd rest).
Proof.
  induction 1 as [| [ds t] rest (_ & Hds & _ & Ht) _ IH]; [reflexivity |].
  cbn [runs map concat fst snd] in *. fold (runs rest).
  rewrite !List.filter_app, IH, filter_delimiters, filter_free by assumption.
  reflexivity.
Qed.

(** X21.  On every string shorter than [npos], [split] returns, without
    throwing: at least one token; no token holds a delimiter; only the first
    token can be empty; and the tokens, put end to end, are the string
    without its delimiters. *)
Theorem split_tokens (str delimiters : cstring) :
  size str < npos ->
  exists (first : cstring) (others : list cstring),
    split str delimiters = Some (first :: others) /\
    Forall (fun t => free_of delimiters t = true) (first :: others) /\
    Forall (fun t => t <> []) others /\
    concat (first :: others)
    = List.filter (fun a => negb (is_one_of delimiters a)) str.
Proof.
  intros Hsize. pose proof (decompose_spec delimiters str) as H.
  destruct (decompose delimiters str) as [[t0 rest] tail].
  destruct H as (Hstr & Ht0 & Hrest & Htail & Hlen).
  exists t0, (map snd rest). split; [| split; [| split]].
  - assert (Hfuel : (length rest + 2 <= S (S (length str)))%nat) by lia.
    exact (split_loop_runs delimiters rest str [] t0 tail [] _
             Hstr Ht0 Hrest Htail Hsize Hfuel).
  - apply Forall_cons. split; [exact Ht0 |].
    apply Forall_map. eapply Forall_impl; [exact Hrest |].
    now intros x (_ & _ & _ & Hx).
  - apply Forall_map. eapply Forall_impl; [exact Hrest |].
    now intros x (_ & _ & Hx & _).
  - rewrite Hstr. rewrite !List.filter_app.
    rewrite filter_free, filter_runs, filter_delimiters by assumption.
    cbn [concat]. now rewrite app_nil_r.
Qed.

Lemma split_tokens_witness :
  exists (first : cstring) (others : list cstring),
    split (list_ascii_of_string ",,1::2,3:") (list_ascii_of_string ":,")
    = Some (first :: others) /\
    concat (first :: others) = list_ascii_of_string "123".
Proof.
  destruct (split_tokens (list_ascii_of_string ",,1::2,3:")
              (list_ascii_of_string ":,")) as (f & o & H1 & _ & _ & H2).
  - vm_compute. reflexivity.
  - exists f, o. split; [exact H1 | exact H2].
Defined.

(** X22.  A string without any delimiter, the empty string included, is
    returned whole, as the only token. *)
Theorem split_without_delimiter (str delimiters : cstring) :
  free_of delimiters str = true -> size str < npos ->
  split str delimiters = Some [str].
Proof.
  intros Hfree Hsize.
  assert (Hstr : str = [] ++ str ++ runs [] ++ []).
  { cbn [runs map concat app]. now rewrite app_nil_r. }
  assert (Hfuel : (length (@nil (cstring * cstring)) + 2
                   <= S (S (length str)))%nat) by (cbn [length]; lia).
  exact (split_loop_runs delimiters [] str [] str [] [] _
           Hstr Hfree (@List.Forall_nil _ _) eq_refl Hsize Hfuel).
Qed.

Lemma split_without_delimiter_witness :
  split [] (list_ascii_of_string ":,") = Some [[]].
Proof.
  apply split_without_delimiter; [reflexivity | vm_compute; reflexivity].
Defined.

(** ** The string constructor on other texts *)

Lemma length_separated (rest : list (ascii * cstring)) :
  (length rest <= length (separated rest))%nat.
Proof.
  induction rest as [| [d t] rest IH]; [cbn; lia |].
  unfold separated in *. cbn [map concat fst snd length app].
  rewrite length_app. lia.
Qed.

Lemma split_separated (delimiters t0 : cstring)
    (rest : list (ascii * cstring)) :
  free_of delimiters t0 = true ->
  Forall (fun x => is_one_of delimiters (fst x) = true /\
                   snd x <> [] /\ free_of delimiters (snd x) = true) rest ->
  size (t0 ++ separated rest) < npos ->
  split (t0 ++ separated rest) delimiters = Some (t0 :: map snd rest).
Proof.
  intros Ht0 Hrest Hsize.
  assert (Hfuel : (length rest + 2
                   <= S (S (length (t0 ++ separated rest))))%nat).
  { pose proof (length_separated rest). rewrite length_app. lia. }
  exact (split_loop_tokens delimiters rest (t0 ++ separated rest) [] t0 []
           _ eq_refl Ht0 Hrest Hsize Hfuel).
Qed.

(** The tokens of a body of six: the last one comes with what follows it. *)
Lemma split_six (t0 t1 t2 t3 t4 t5 closing : cstring) :
  token t0 = true -> token t1 = true -> token t2 = true ->
  token t3 = true -> token t4 = true -> token t5 = true ->
  free_of (list_ascii_of_string ":,") closing = true ->
  size (envelope_body t0 t1 t2 t3 t4 t5 closing) < npos ->
  split (envelope_body t0 t1 t2 t3 t4 t5 closing) (list_ascii_of_string ":,")
  = Some [t0; t1; t2; t3; t4; t5 ++ closing].
Proof.
  intros H0 H1 H2 H3 H4 H5 Hc Hsize.
  apply token_free in H0 as [_ F0]. apply token_free in H1 as [N1 F1].
  apply token_free in H2 as [N2 F2]. apply token_free in H3 as [N3 F3].
  apply token_free in H4 as [N4 F4]. apply token_free in H5 as [N5 F5].
  assert (E : envelope_body t0 t1 t2 t3 t4 t5 closing
              = t0 ++ separated [(":"%char, t1); (","%char, t2);
                                 (":"%char, t3); (","%char, t4);
                                 (":"%char, t5 ++ closing)]).
  { unfold envelope_body, separated.
    cbn [map concat fst snd list_ascii_of_string app].
    rewrite !app_nil_r.
    repeat (f_equal; try (rewrite <- !app_assoc; cbn [app])). }
  rewrite E in *. rewrite split_separated; [reflexivity | exact F0 | | exact Hsize].
  repeat (apply Forall_cons; split;
          [cbn [fst snd]; repeat split; try assumption |]).
  - intros E'. apply app_eq_nil in E' as [E' _]. contradiction.
  - unfold free_of in *. rewrite forallb_app, F5, Hc. reflexivity.
  - constructor.
Qed.

(** The tokens of a body of four. *)
Lemma split_four (t0 t1 t2 t3 closing : cstring) :
  token t0 = true -> token t1 = true -> token t2 = true ->
  token t3 = true ->
  free_of (list_ascii_of_string ":,") closing = true ->
  size (t0 ++ list_ascii_of_string ":" ++ t1 ++ list_ascii_of_string "," ++
        t2 ++ list_ascii_of_string ":" ++ t3 ++ closing) < npos ->
  split (t0 ++ list_ascii_of_string ":" ++ t1 ++ list_ascii_of_string "," ++
         t2 ++ list_ascii_of_string ":" ++ t3 ++ closing)
    (list_ascii_of_string ":,")
  = Some [t0; t1; t2; t3 ++ closing].
Proof.
  intros H0 H1 H2 H3 Hc Hsize.
  apply token_free in H0 as [_ F0]. apply token_free in H1 as [N1 F1].
  apply token_free in H2 as [N2 F2]. apply token_free in H3 as [N3 F3].
  assert (E : t0 ++ list_ascii_of_string ":" ++ t1 ++
              list_ascii_of_string "," ++ t2 ++ list_ascii_of_string ":" ++
              t3 ++ closing
              = t0 ++ separated [(":"%char, t1); (","%char, t2);
                                 (":"%char, t3 ++ closing)]).
  { unfold separated.
    cbn [map concat fst snd list_ascii_of_string app].
    rewrite !app_nil_r.
    repeat (f_equal; try (rewrite <- !app_assoc; cbn [app])). }
  rewrite E in *. rewrite split_separated; [reflexivity | exact F0 | | exact Hsize].
  repeat (apply Forall_cons; split;
          [cbn [fst snd]; repeat split; try assumption |]).
  - intros E'. apply app_eq_nil in E' as [E' _]. contradiction.
  - unfold free_of in *. rewrite forallb_app, F3, Hc. reflexivity.
  - constructor.
Qed.

(** What the constructor cuts out of a text with something before the
    bracket: all that follows the bracket, the closing bracket included. *)
Lemma coordString_named (name inner : cstring) :
  name <> [] -> no_bracket name = true ->
  size (name ++ "["%char :: inner) < npos ->
  substr (name ++ "["%char :: inner)
    (size_t_add (find (name ++ "["%char :: inner) "["%char) 1)
    (size_t_sub (size_t_sub (size (name ++ "["%char :: inner)) 1) 1)
  = Some inner.
Proof.
  intros Hne Hname Hsize. unfold find.
  rewrite find_if_from_hit by (assumption || reflexivity || lia).
  rewrite size_app, size_cons in *.
  pose proof (size_nonneg name). pose proof (size_nonneg inner).
  assert (1 <= size name).
  { destruct name; [contradiction | rewrite size_cons; pose proof (size_nonneg name); lia]. }
  unfold npos, size_t_max in Hsize.
  unfold size_t_add, size_t_sub.
  rewrite (Z.mod_small (0 + size name + 1)) by lia.
  rewrite (Z.mod_small (size name + (1 + size inner) - 1)) by lia.
  rewrite Z.mod_small by lia.
  replace (name ++ "["%char :: inner)
    with ((name ++ ["["%char]) ++ inner ++ [])
    by (rewrite app_nil_r, <- app_assoc; reflexivity).
  replace (0 + size name + 1) with (size (name ++ ["["%char]))
    by (rewrite size_app, size_cons; change (size []) with 0; lia).
  apply substr_app. change (size []) with 0. lia.
Qed.

(** With the bracket at the head of the text, the last character is cut
    off as well. *)
Lemma coordString_unnamed (inner : cstring) (c : ascii) :
  size ("["%char :: inner ++ [c]) < npos ->
  substr ("["%char :: inner ++ [c])
    (size_t_add (find ("["%char :: inner ++ [c]) "["%char) 1)
    (size_t_sub (size_t_sub (size ("["%char :: inner ++ [c])) 1) 1)
  = Some inner.
Proof.
  intros Hsize. change (find ("["%char :: inner ++ [c]) "["%char) with 0.
  rewrite size_cons, size_app, size_cons in *. change (size []) with 0 in *.
  pose proof (size_nonneg inner).
  unfold npos, size_t_max in Hsize.
  unfold size_t_add, size_t_sub. change ((0 + 1) mod 2 ^ 64) with 1.
  rewrite (Z.mod_small (1 + (size inner + (1 + 0)) - 1)) by lia.
  rewrite Z.mod_small by lia.
  change ("["%char :: inner ++ [c]) with (["["%char] ++ inner ++ [c]).
  change 1 with (size ["["%char]) at 1.
  apply substr_app. rewrite size_cons. change (size []) with 0. lia.
Qed.

(** Without any bracket the search returns [npos], the start position
    wraps around to 0 and the last two characters are cut off. *)
Lemma coordString_no_bracket (inner : cstring) (c d : ascii) :
  no_bracket (inner ++ [c; d]) = true ->
  size (inner ++ [c; d]) < npos ->
  substr (inner ++ [c; d])
    (size_t_add (find (inner ++ [c; d]) "["%char) 1)
    (size_t_sub (size_t_sub (size (inner ++ [c; d])) 1) 1)
  = Some inner.
Proof.
  intros Hno Hsize. unfold find. rewrite find_if_from_miss by exact Hno.
  change (size_t_add npos 1) with 0.
  rewrite size_app, !size_cons in *. change (size []) with 0 in *.
  pose proof (size_nonneg inner).
  unfold npos, size_t_max in Hsize. unfold size_t_sub.
  rewrite (Z.mod_small (size inner + (1 + (1 + 0)) - 1)) by lia.
  rewrite Z.mod_small by lia.
  change (inner ++ [c; d]) with ([] ++ inner ++ [c; d]).
  change 0 with (size []).
  apply substr_app. rewrite !size_cons. change (size []) with 0. lia.
Qed.

Lemma envelope_body_closing (t0 t1 t2 t3 t4 t5 closing : cstring) :
  envelope_body t0 t1 t2 t3 t4 t5 closing
  = envelope_body t0 t1 t2 t3 t4 t5 [] ++ closing.
Proof.
  unfold envelope_body. rewrite app_nil_r, <- !app_assoc. reflexivity.
Qed.

(** X23.  The constructor does not look at what stands before the opening
    bracket: whatever the name, it returns the envelope of the six tokens.
    With a name, the last token is read with the closing bracket after it;
    with the bracket at the head of the text, without it. *)
Theorem constructor_ignores_name (strtod : cstring -> double)
    (name t0 t1 t2 t3 t4 t5 : cstring) :
  no_bracket name = true ->
  token t0 = true -> token t1 = true -> token t2 = true ->
  token t3 = true -> token t4 = true -> token t5 = true ->
  size (name ++ list_ascii_of_string "[" ++
        envelope_body t0 t1 t2 t3 t4 t5 (list_ascii_of_string "]")) < npos ->
  Envelope3d_of_string strtod
    (name ++ list_ascii_of_string "[" ++
     envelope_body t0 t1 t2 t3 t4 t5 (list_ascii_of_string "]"))
  = Some (init (strtod (c_str t0)) (strtod (c_str t1)) (strtod (c_str t2))
            (strtod (c_str t3)) (strtod (c_str t4))
            (strtod (c_str (t5 ++ match name with
                                  | [] => []
                                  | _ :: _ => list_ascii_of_string "]"
                                  end)))).
Proof.
  intros Hname H0 H1 H2 H3 H4 H5 Hsize.
  cbn [list_ascii_of_string app] in *. unfold Envelope3d_of_string.
  destruct name as [| a name].
  - cbn [app] in *. rewrite envelope_body_closing in *.
    rewrite coordString_unnamed by exact Hsize.
    cbn [mbind option_bind]. rewrite split_six; try assumption; try reflexivity.
    rewrite size_cons, size_app, size_cons in Hsize.
    change (size []) with 0 in Hsize.
    pose proof (size_nonneg (envelope_body t0 t1 t2 t3 t4 t5 [])). lia.
  - rewrite coordString_named by (assumption || discriminate).
    cbn [mbind option_bind]. rewrite split_six; try assumption; try reflexivity.
    rewrite size_app, !size_cons in Hsize.
    pose proof (size_nonneg name). lia.
Qed.

Lemma constructor_ignores_name_witness :
  Envelope3d_of_string Libc.strtod (list_ascii_of_string "[1:2,3:4,5:6]")
  = Some (init (Libc.strtod (Libc.chars "1")) (Libc.strtod (Libc.chars "2"))
            (Libc.strtod (Libc.chars "3")) (Libc.strtod (Libc.chars "4"))
            (Libc.strtod (Libc.chars "5")) (Libc.strtod (Libc.chars "6"))).
Proof.
  apply (constructor_ignores_name Libc.strtod []
           (Libc.chars "1") (Libc.chars "2") (Libc.chars "3")
           (Libc.chars "4") (Libc.chars "5") (Libc.chars "6"));
    reflexivity.
Defined.

(** X24.  The text of the format named in the constructor's own comment,
    [Env[7.2:2.3,7.1:8.2]], with four tokens, gives no envelope: the vector
    of tokens has four entries and the constructor reads the fifth. *)
Theorem constructor_four_tokens (strtod : cstring -> double)
    (t0 t1 t2 t3 : cstring) :
  token t0 = true -> token t1 = true -> token t2 = true ->
  token t3 = true ->
  size (envelope_text_2d t0 t1 t2 t3) < npos ->
  Envelope3d_of_string strtod (envelope_text_2d t0 t1 t2 t3) = None.
Proof.
  intros H0 H1 H2 H3 Hsize. unfold envelope_text_2d in *.
  change (list_ascii_of_string "Env[" ++ ?s)
    with (list_ascii_of_string "Env" ++ "["%char :: s) in *.
  unfold Envelope3d_of_string.
  rewrite coordString_named by (assumption || discriminate || reflexivity).
  cbn [mbind option_bind]. rewrite split_four; try assumption; try reflexivity.
  rewrite size_app, size_cons in Hsize.
  change (size (list_ascii_of_string "Env")) with 3 in Hsize. lia.
Qed.

Lemma constructor_four_tokens_witness :
  Envelope3d_of_string Libc.strtod
    (list_ascii_of_string "Env[7.2:2.3,7.1:8.2]") = None.
Proof.
  apply (constructor_four_tokens Libc.strtod
           (Libc.chars "7.2") (Libc.chars "2.3") (Libc.chars "7.1")
           (Libc.chars "8.2")); reflexivity.
Defined.

(** X25.  A text without any opening bracket is not refused: the search
    for the bracket returns [npos], the start position wraps around to the
    head of the text, and the constructor reads the six tokens after
    cutting off the last two characters, whatever they are. *)
Theorem constructor_without_bracket (strtod : cstring -> double)
    (t0 t1 t2 t3 t4 t5 : cstring) (c d : ascii) :
  no_bracket (envelope_body t0 t1 t2 t3 t4 t5 [c; d]) = true ->
  token t0 = true -> token t1 = true -> token t2 = true ->
  token t3 = true -> token t4 = true -> token t5 = true ->
  size (envelope_body t0 t1 t2 t3 t4 t5 [c; d]) < npos ->
  Envelope3d_of_string strtod (envelope_body t0 t1 t2 t3 t4 t5 [c; d])
  = Some (init (strtod (c_str t0)) (strtod (c_str t1)) (strtod (c_str t2))
            (strtod (c_str t3)) (strtod (c_str t4)) (strtod (c_str t5))).
Proof.
  intros Hno H0 H1 H2 H3 H4 H5 Hsize. unfold Envelope3d_of_string.
  rewrite envelope_body_closing in *.
  rewrite coordString_no_bracket by assumption.
  cbn [mbind option_bind]. rewrite split_six; try assumption; try reflexivity.
  - now rewrite app_nil_r.
  - rewrite size_app in Hsize. pose proof (size_nonneg [c; d]). lia.
Qed.

Lemma constructor_without_bracket_witness :
  Envelope3d_of_string Libc.strtod (list_ascii_of_string "1:2,3:4,5:678")
  = Some (init (Libc.strtod (Libc.chars "1")) (Libc.strtod (Libc.chars "2"))
            (Libc.strtod (Libc.chars "3")) (Libc.strtod (Libc.chars "4"))
            (Libc.strtod (Libc.chars "5")) (Libc.strtod (Libc.chars "6"))).
Proof.
  apply (constructor_without_bracket Libc.strtod
           (Libc.chars "1") (Libc.chars "2") (Libc.chars "3")
           (Libc.chars "4") (Libc.chars "5") (Libc.chars "6")
           "7"%char "8"%char); reflexivity.
Defined.

(** ** SimpleSTRnode3d::removeChild *)

Lemma removeChild_loop_first (child : ptr) (l1 l2 : list ptr) :
  Forall (fun c => c <> child) l1 ->
  removeChild_loop child (l1 ++ child :: l2) = (true, l1 ++ l2).
Proof.
  induction 1 as [| c l1 Hc _ IH]; cbn [app removeChild_loop].
  - now rewrite Z.eqb_refl.
  - apply Z.eqb_neq in Hc. now rewrite Hc, IH.
Qed.

Lemma removeChild_loop_absent (child : ptr) (cs : list ptr) :
  Forall (fun c => c <> child) cs ->
  removeChild_loop child cs = (false, cs).
Proof.
  induction 1 as [| c cs Hc _ IH]; cbn [removeChild_loop]; [reflexivity |].
  apply Z.eqb_neq in Hc. now rewrite Hc, IH.
Qed.

(** X26.  [removeChild] compares pointers only, so it works whatever the
    children point to: it erases the first occurrence of the pointer among
    the direct children, leaves a later one in place and returns true; when
    the pointer is not among them it returns false and the store is as it
    was. *)
Theorem removeChild_first_occurrence (h : heap) (this child : ptr)
    (n : SimpleSTRnode3d) :
  h !! this = Some n ->
  (forall l1 l2 : list ptr,
      childNodes n = l1 ++ child :: l2 ->
      Forall (fun c => c <> child) l1 ->
      removeChild h this child =
        Some (true,
              <[this := mkSimpleSTRnode3d (l1 ++ l2) (item n) (bounds n)
                          (level n)]> h)) /\
  (Forall (fun c => c <> child) (childNodes n) ->
   removeChild h this child = Some (false, h)).
Proof.
  intros Hn. unfold removeChild. rewrite Hn. cbn [mbind option_bind]. split.
  - intros l1 l2 Hcs Hl1. rewrite Hcs, removeChild_loop_first by exact Hl1.
    reflexivity.
  - intros Hcs. rewrite removeChild_loop_absent by exact Hcs. reflexivity.
Qed.

Lemma removeChild_first_occurrence_witness :
  removeChild (<[1 := mkSimpleSTRnode3d [2; 3; 2] nullptr (cube 0 6) 1]> ∅)
    1 2
  = Some (true,
          <[1 := mkSimpleSTRnode3d [3; 2] nullptr (cube 0 6) 1]>
            (<[1 := mkSimpleSTRnode3d [2; 3; 2] nullptr (cube 0 6) 1]> ∅)).
Proof.
  apply (proj1 (removeChild_first_occurrence
                  (<[1 := mkSimpleSTRnode3d [2; 3; 2] nullptr (cube 0 6) 1]> ∅)
                  1 2 (mkSimpleSTRnode3d [2; 3; 2] nullptr (cube 0 6) 1)
                  (lookup_insert_eq _ _ _)) [] [3; 2]).
  - reflexivity.
  - constructor.
Defined.

(** X27.  Adding a child that the node does not have yet and removing it
    again gives back the list of children, the item and the level of the
    node, and touches no other node; the bounds are not given back: they
    stay what the addition made of them. *)
Theorem addChildNode3d_then_removeChild (h : heap) (this child : ptr)
    (n cn : SimpleSTRnode3d) :
  h !! this = Some n -> h !! child = Some cn ->
  Forall (fun c => c <> child) (childNodes n) ->
  exists (h1 h2 : heap) (n1 : SimpleSTRnode3d),
    addChildNode3d h this child = Some h1 /\
    h1 !! this = Some n1 /\
    bounds n1 = (if isNull (bounds n) then bounds cn
                 else expandToInclude (bounds n) (bounds cn)) /\
    removeChild h1 this child = Some (true, h2) /\
    h2 !! this = Some (mkSimpleSTRnode3d (childNodes n) (item n) (bounds n1)
                         (level n)) /\
    forall q : ptr, q <> this -> h2 !! q = h !! q.
Proof.
  intros Hn Hc Hcs. unfold addChildNode3d, getEnvelope.
  rewrite Hn, Hc. cbn [mbind option_bind fmap option_fmap option_map].
  eexists _, _, _. split; [reflexivity |].
  split; [apply lookup_insert_eq |]. cbn [bounds].
  split; [reflexivity |]. unfold removeChild.
  rewrite lookup_insert_eq. cbn [mbind option_bind childNodes].
  rewrite removeChild_loop_first by exact Hcs. cbn [fst snd].
  split; [reflexivity |]. cbn [item level bounds]. split.
  - rewrite lookup_insert_eq, app_nil_r. reflexivity.
  - intros q Hq. now rewrite !lookup_insert_ne by congruence.
Qed.

Lemma addChildNode3d_then_removeChild_witness :
  exists (h1 h2 : heap) (n1 : SimpleSTRnode3d),
    addChildNode3d example_heap 2 3 = Some h1 /\
    h1 !! 2 = Some n1 /\
    removeChild h1 2 3 = Some (true, h2) /\
    h2 !! 2 = Some (mkSimpleSTRnode3d [] 10 (bounds n1) 0).
Proof.
  destruct (addChildNode3d_then_removeChild example_heap 2 3
              (mkSimpleSTRnode3d [] 10 (cube 0 1) 0)
              (mkSimpleSTRnode3d [] 11 (cube 5 6) 0))
    as (h1 & h2 & n1 & H1 & H2 & _ & H3 & H4 & _).
  - reflexivity.
  - reflexivity.
  - constructor.
  - exists h1, h2, n1. repeat split; assumption.
Defined.

(** ** Counting after an addition *)

(** A pointer stands for one tree at most. *)
Lemma repr_functional (h : heap) (t1 : stree) :
  forall (p : ptr) (t2 : stree), repr h p t1 -> repr h p t2 -> t1 = t2.
Proof.
  induction t1 as [p1 n1 kids1 IH] using stree_ind.
  intros p t2 H1 H2.
  inversion H1 as [? ? ? Hp1 Hk1]; subst.
  inversion H2 as [? ? ? Hp2 Hk2]; subst.
  rewrite Hp1 in Hp2. injection Hp2 as <-. f_equal.
  clear H1 H2 Hp1. revert kids Hk2.
  induction Hk1 as [| c k cs kids1 Hc _ IHk]; intros kids Hk2.
  - now inversion Hk2.
  - inversion Hk2 as [| ? k' ? kids' Hc' Hk']; subst.
    apply Forall_cons in IH as [IHhead IHtail].
    f_equal; [now apply (IHhead c) | now apply IHk].
Qed.

(** An address inside a child of the root is the root of a lower tree. *)
Lemma repr_inside (h : heap) (t : stree) :
  forall p : ptr, repr h p t ->
  forall q : ptr,
    match t with
    | SNode _ _ kids => q ∈ concat (map addresses kids)
    end ->
    exists t' : stree, repr h q t' /\ (height t' < height t)%nat.
Proof.
  induction t as [p0 n kids IH] using stree_ind.
  intros p Hrepr q Hq.
  inversion Hrepr as [? ? ? Hp Hcs]; subst. clear Hrepr Hp.
  pose proof (height_kids kids) as Hh. cbn [height].
  induction Hcs as [| c k cs kids Hc _ IHk].
  - cbn in Hq. inversion Hq.
  - cbn [map concat] in Hq. apply elem_of_app in Hq.
    apply Forall_cons in IH as [IHhead IHtail].
    apply Forall_cons in Hh as [Hhk Hhks]. cbn [map foldr] in *.
    destruct Hq as [Hq | Hq].
    + destruct k as [pk nk kk]. cbn [addresses] in Hq.
      apply elem_of_cons in Hq as [-> | Hq].
      * inversion Hc; subst. exists (SNode pk nk kk).
        split; [exact Hc | lia].
      * destruct (IHhead c Hc q Hq) as (t' & Ht' & Hlt).
        exists t'. split; [exact Ht' | lia].
    + destruct IHk as (t' & Ht' & Hlt); try assumption.
      * eapply Forall_impl; [apply height_kids |]. cbv beta. intros. lia.
      * exists t'. split; [exact Ht' | lia].
Qed.

(** The root of a tree is not inside its children: the store holds no
    cycle through a pointer that stands for a tree. *)
Lemma repr_acyclic (h : heap) (p : ptr) (n : SimpleSTRnode3d)
    (kids : list stree) :
  repr h p (SNode p n kids) -> p ∉ concat (map addresses kids).
Proof.
  intros Hrepr Hin.
  destruct (repr_inside h _ p Hrepr p Hin) as (t' & Ht' & Hlt).
  rewrite (repr_functional h _ p _ Ht' Hrepr) in Hlt. lia.
Qed.

(** A write at an address outside the tree leaves the tree as it is. *)
Lemma repr_frame (h : heap) (this : ptr) (n' : SimpleSTRnode3d) (t : stree) :
  this ∉ addresses t ->
  forall p : ptr, repr h p t -> repr (<[this := n']> h) p t.
Proof.
  induction t as [p0 n kids IH] using stree_ind.
  intros Hout p Hrepr. inversion Hrepr as [? ? ? Hp Hcs]; subst.
  cbn [addresses] in Hout. apply not_elem_of_cons in Hout as [Hne Hout].
  constructor; [now rewrite lookup_insert_ne by congruence |].
  clear Hrepr Hp. induction Hcs as [| c k cs kids Hc _ IHk]; [constructor |].
  cbn [map concat] in Hout. apply not_elem_of_app in Hout as [Hk Hks].
  apply Forall_cons in IH as [IHhead IHtail].
  constructor; [now apply IHhead | now apply IHk].
Qed.

Lemma repr_frame_kids (h : heap) (this : ptr) (n' : SimpleSTRnode3d)
    (cs : list ptr) (kids : list stree) :
  this ∉ concat (map addresses kids) ->
  Forall2 (repr h) cs kids -> Forall2 (repr (<[this := n']> h)) cs kids.
Proof.
  intros Hout Hcs. induction Hcs as [| c k cs kids Hc _ IHk]; [constructor |].
  cbn [map concat] in Hout. apply not_elem_of_app in Hout as [Hk Hks].
  constructor; [now apply repr_frame | now apply IHk].
Qed.

Lemma foldr_and_app (P : stree -> Prop) (l1 l2 : list stree) :
  foldr and True (map P l1) -> foldr and True (map P l2) ->
  foldr and True (map P (l1 ++ l2)).
Proof.
  induction l1 as [| k l1 IH]; cbn [app map foldr]; [tauto |].
  intros [H1 H2] H3. split; [exact H1 | now apply IH].
Qed.

Lemma height_kids_app (l1 l2 : list stree) :
  foldr Nat.max O (map height (l1 ++ l2))
  = Nat.max (foldr Nat.max O (map height l1))
      (foldr Nat.max O (map height l2)).
Proof.
  induction l1 as [| k l1 IH]; cbn [app map foldr]; [reflexivity |].
  rewrite IH. lia.
Qed.

(** X28.  When a subtree that does not hold the node is added to a node
    that is not a leaf, [getNumNodes] and [getNumLeafNodes] of the node
    grow by the counts of the subtree. *)
Theorem addChildNode3d_adds_counts (isLeaf : SimpleSTRnode3d -> bool)
    (h h1 : heap) (this child : ptr) (t tc : stree)
    (n n1 : SimpleSTRnode3d) (fuel : nat) :
  repr h this t -> repr h child tc -> this ∉ addresses tc ->
  leaves_childless isLeaf t -> leaves_childless isLeaf tc ->
  h !! this = Some n -> isLeaf n = false ->
  addChildNode3d h this child = Some h1 ->
  h1 !! this = Some n1 -> isLeaf n1 = false ->
  Z.of_nat (length (flatten t)) + Z.of_nat (length (flatten tc))
  <= size_t_max ->
  (height t <= fuel)%nat -> (height tc < fuel)%nat ->
  exists nodes nodes_c leaves leaves_c : Z,
    getNumNodes isLeaf fuel h this = Some nodes /\
    getNumNodes isLeaf fuel h child = Some nodes_c /\
    getNumNodes isLeaf fuel h1 this = Some (nodes + nodes_c) /\
    getNumLeafNodes isLeaf fuel h this = Some leaves /\
    getNumLeafNodes isLeaf fuel h child = Some leaves_c /\
    getNumLeafNodes isLeaf fuel h1 this = Some (leaves + leaves_c).
Proof.
  intros Ht Htc Hout Hlt Hltc Hn Hleaf Hadd Hn1 Hleaf1 Hsize Hfuel Hfuelc.
  destruct t as [p0 n0 kids].
  assert (E0 : p0 = this /\ n0 = n /\ Forall2 (repr h) (childNodes n) kids).
  { inversion Ht as [? ? ? Hp Hcs]; subst. rewrite Hn in Hp.
    injection Hp as <-. auto. }
  destruct E0 as (-> & -> & Hcs).
  pose proof (repr_acyclic h this n kids Ht) as Hacyc.
  assert (Hc : exists cn, h !! child = Some cn).
  { inversion Htc; subst. eexists. eassumption. }
  destruct Hc as [cn Hc].
  unfold addChildNode3d, getEnvelope in Hadd.
  rewrite Hn, Hc in Hadd.
  cbn [mbind option_bind fmap option_fmap option_map] in Hadd.
  injection Hadd as <-. rewrite lookup_insert_eq in Hn1.
  injection Hn1 as <-.
  set (n1 := mkSimpleSTRnode3d (childNodes n ++ [child]) (item n)
               (if isNull (bounds n) then bounds cn
                else expandToInclude (bounds n) (bounds cn)) (level n)) in *.
  set (h1 := <[this := n1]> h).
  assert (Ht1 : repr h1 this (SNode this n1 (kids ++ [tc]))).
  { constructor; [apply lookup_insert_eq |]. cbn [childNodes n1].
    apply Forall2_app; [now apply repr_frame_kids |].
    constructor; [now apply repr_frame | constructor]. }
  assert (Hlt1 : leaves_childless isLeaf (SNode this n1 (kids ++ [tc]))).
  { cbn [leaves_childless]. split; [rewrite Hleaf1; discriminate |].
    apply foldr_and_app; [apply Hlt | cbn [map foldr]; tauto]. }
  assert (Hh1 : (height (SNode this n1 (kids ++ [tc])) <= fuel)%nat).
  { cbn [height] in *. rewrite height_kids_app. cbn [map foldr]. lia. }
  destruct (counts_mod isLeaf h _ Hlt this fuel Ht Hfuel) as [Ea Eb].
  destruct (counts_mod isLeaf h _ Hltc child fuel Htc) as [Ec Ed]; [lia |].
  destruct (counts_mod isLeaf h1 _ Hlt1 this fuel Ht1 Hh1) as [Ee Ef].
  pose proof (List.filter_length_le isLeaf (flatten (SNode this n kids))).
  pose proof (List.filter_length_le isLeaf (flatten tc)).
  unfold size_t_max in Hsize.
  assert (Hlen : length (flatten (SNode this n1 (kids ++ [tc])))
                 = (length (flatten (SNode this n kids))
                    + length (flatten tc))%nat).
  { cbn [flatten length]. rewrite map_app, concat_app, length_app.
    cbn [map concat]. rewrite app_nil_r. lia. }
  assert (Hfil : length (List.filter isLeaf
                           (flatten (SNode this n1 (kids ++ [tc]))))
                 = (length (List.filter isLeaf (flatten (SNode this n kids)))
                    + length (List.filter isLeaf (flatten tc)))%nat).
  { cbn [flatten List.filter]. rewrite Hleaf, Hleaf1.
    rewrite map_app, concat_app, List.filter_app, length_app.
    cbn [map concat]. rewrite app_nil_r. lia. }
  rewrite Hlen in Ee. rewrite Hfil in Ef.
  rewrite Z.mod_small in Ea, Eb, Ec, Ed, Ee, Ef by lia.
  eexists _, _, _, _.
  split; [exact Ea |]. split; [exact Ec |].
  split; [rewrite Ee; f_equal; lia |].
  split; [exact Eb |]. split; [exact Ed |].
  rewrite Ef. f_equal. lia.
Qed.

(** The theorem on the example store: a fourth node, the leaf at 4, is added
    to the parent at 1, whose three nodes and two leaves become four and
    three. *)
Lemma addChildNode3d_adds_counts_witness :
  exists h1 : heap,
    addChildNode3d
      (<[4 := mkSimpleSTRnode3d [] 12 (cube 7 8) 0]> example_heap) 1 4
    = Some h1 /\
    getNumNodes level_zero 2 h1 1 = Some (3 + 1) /\
    getNumLeafNodes level_zero 2 h1 1 = Some (2 + 1).
Proof.
  exists (<[1 := mkSimpleSTRnode3d [2; 3; 4] nullptr
                   (expandToInclude (cube 0 6) (cube 7 8)) 1]>
            (<[4 := mkSimpleSTRnode3d [] 12 (cube 7 8) 0]> example_heap)).
  destruct (addChildNode3d_adds_counts level_zero
              (<[4 := mkSimpleSTRnode3d [] 12 (cube 7 8) 0]> example_heap)
              (<[1 := mkSimpleSTRnode3d [2; 3; 4] nullptr
                        (expandToInclude (cube 0 6) (cube 7 8)) 1]>
                 (<[4 := mkSimpleSTRnode3d [] 12 (cube 7 8) 0]>
                    example_heap))
              1 4 example_tree
              (SNode 4 (mkSimpleSTRnode3d [] 12 (cube 7 8) 0) [])
              example_parent
              (mkSimpleSTRnode3d [2; 3; 4] nullptr
                 (expandToInclude (cube 0 6) (cube 7 8)) 1) 2)
    as (k & kc & l & lc & E1 & E2 & E3 & E4 & E5 & E6).
  - constructor; [reflexivity |]. repeat constructor.
  - constructor; [reflexivity |]. constructor.
  - cbn. intros H. apply elem_of_cons in H as [H | H]; [lia | inversion H].
  - cbn. repeat split; discriminate.
  - cbn. repeat split; discriminate.
  - reflexivity.
  - reflexivity.
  - reflexivity.
  - reflexivity.
  - reflexivity.
  - unfold size_t_max. cbn. lia.
  - cbn. lia.
  - cbn. lia.
  - vm_compute in E1, E2, E4, E5.
    injection E1 as <-. injection E2 as <-.
    injection E4 as <-. injection E5 as <-.
    split; [reflexivity |]. split; [exact E3 | exact E6].
Defined.

(** X29.  On a tree whose leaves have no children, [getNumNodes] returns at
    least 1 and [getNumLeafNodes] never returns more than [getNumNodes]. *)
Theorem leaves_at_most_nodes (isLeaf : SimpleSTRnode3d -> bool) (h : heap)
    (p : ptr) (t : stree) (fuel : nat) :
  repr h p t -> leaves_childless isLeaf t ->
  Z.of_nat (length (flatten t)) <= size_t_max ->
  (height t <= fuel)%nat ->
  exists nodes leaves : Z,
    getNumNodes isLeaf fuel h p = Some nodes /\
    getNumLeafNodes isLeaf fuel h p = Some leaves /\
    0 <= leaves <= nodes /\ 1 <= nodes.
Proof.
  intros Hrepr Hlt Hsize Hfuel.
  destruct (counts_mod isLeaf h t Hlt p fuel Hrepr Hfuel) as [Ea Eb].
  pose proof (List.filter_length_le isLeaf (flatten t)).
  assert (1 <= length (flatten t))%nat by (destruct t; cbn [flatten length]; lia).
  unfold size_t_max in Hsize.
  rewrite Z.mod_small in Ea, Eb by lia.
  eexists _, _. split; [exact Ea |]. split; [exact Eb |]. lia.
Qed.

Lemma leaves_at_most_nodes_witness :
  exists nodes leaves : Z,
    getNumNodes level_zero 2 example_heap 1 = Some nodes /\
    getNumLeafNodes level_zero 2 example_heap 1 = Some leaves /\
    0 <= leaves <= nodes /\ 1 <= nodes.
Proof.
  apply (leaves_at_most_nodes level_zero example_heap 1 example_tree 2).
  - constructor; [reflexivity |]. repeat constructor.
  - cbn. repeat split; discriminate.
  - unfold size_t_max. cbn. lia.
  - cbn. lia.
Defined.

(** ** Envelope3d::translate *)

Lemma add_zero_eqb (x : double) :
  isnan x = false -> PrimFloat.eqb (PrimFloat.add x 0) x = true.
Proof.
  intros H. destruct (plus_minus_zero x H) as [[N K] _].
  rewrite eqb_key, N, K, H. cbn [negb andb]. apply Z.eqb_refl.
Qed.

(** X30.  [translate] does not move a null envelope, whatever the
    translation; and a translation by zero on every axis leaves the six
    extents of a non-null well-formed envelope as they are. *)
Theorem translate_null_or_zero (e : Envelope3d) (transX transY transZ : double) :
  well_formed e = true ->
  (isNull e = true -> translate e transX transY transZ = e) /\
  (isNull e = false -> same_extents (translate e 0 0 0) e = true).
Proof.
  intros Hw. split; intros Hn; unfold translate; rewrite Hn; [reflexivity |].
  pose proof (well_formed_numeric e Hw Hn) as Hnum.
  destruct (well_formed_ordered e Hw Hn) as (Lx & Ly & Lz).
  numeric_facts Hnum.
  apply init_same_extents; try assumption; now apply add_zero_eqb.
Qed.

Lemma translate_null_or_zero_witness :
  translate (setToNull (cube 0 1)) 1 2 3 = setToNull (cube 0 1) /\
  same_extents (translate (cube 0 1) 0 0 0) (cube 0 1) = true.
Proof.
  split.
  - apply (proj1 (translate_null_or_zero (setToNull (cube 0 1)) 1 2 3
                    eq_refl) eq_refl).
  - apply (proj2 (translate_null_or_zero (cube 0 1) 0 0 0 eq_refl) eq_refl).
Defined.
